(** * Verification of the shortcode compiler: PageLexer, PageRenderer, step rendering

    Shallow embedding of [src/src/pageLexer.ts] (the character-scanning
    [PageLexer]), of [ShortcodeRenderer.renderShortcodeItem]
    ([src/src/shortcodeRenderer.ts]) and of the [PageRenderer] with step
    rendering ([src/unnamed/part_005]).

    JavaScript strings are sequences of UTF-16 code units: a character is
    modelled as an [N] (its code unit) and a string as a [list N]. *)

From Stdlib Require Import Ascii String List NArith Arith Lia Bool.
From Stdlib Require Import Permutation DecimalNat.
Import ListNotations.

Local Open Scope list_scope.

(** ** JavaScript strings *)

Definition char := N.
Definition str := list char.

(** String literals: ASCII text converted to code units. *)
Definition lit (s : string) : str :=
  map (fun a => N.of_nat (nat_of_ascii a)) (list_ascii_of_string s).
Arguments lit s%_string_scope.

Definition char_eqb (a b : char) : bool := N.eqb a b.

Fixpoint str_eqb (a b : str) : bool :=
  match a, b with
  | [], [] => true
  | x :: a', y :: b' => char_eqb x y && str_eqb a' b'
  | _, _ => false
  end.

(** Whitespace of [\s] and of [String.prototype.trim]:
    WhiteSpace and LineTerminator code units. *)
Definition is_ws (c : char) : bool :=
  (c =? 9)%N || (c =? 10)%N || (c =? 11)%N || (c =? 12)%N || (c =? 13)%N
  || (c =? 32)%N || (c =? 160)%N || (c =? 5760)%N
  || ((8192 <=? c)%N && (c <=? 8202)%N)
  || (c =? 8232)%N || (c =? 8233)%N || (c =? 8239)%N || (c =? 8287)%N
  || (c =? 12288)%N || (c =? 65279)%N.

(** LineTerminator: what [^] and [$] see under the [m] flag. *)
Definition is_lt (c : char) : bool :=
  (c =? 10)%N || (c =? 13)%N || (c =? 8232)%N || (c =? 8233)%N.

Fixpoint trimStart (s : str) : str :=
  match s with
  | c :: r => if is_ws c then trimStart r else s
  | [] => []
  end.

Definition trimEnd (s : str) : str := rev (trimStart (rev s)).
Definition trim (s : str) : str := trimEnd (trimStart s).

Fixpoint startsWith (s p : str) : bool :=
  match p, s with
  | [], _ => true
  | x :: p', y :: s' => char_eqb x y && startsWith s' p'
  | _, [] => false
  end.

Definition endsWith (s p : str) : bool := startsWith (rev s) (rev p).

(** [s.substring(a, b)] for [a <= b]. *)
Definition substring (s : str) (a b : nat) : str := firstn (b - a) (skipn a s).

(** [s.indexOf(p, from)]: first index [>= from] where [p] occurs. *)
Fixpoint indexOf_aux (s p : str) (i : nat) : option nat :=
  if startsWith s p then Some i
  else match s with
       | [] => None
       | _ :: r => indexOf_aux r p (S i)
       end.

Definition indexOf (s p : str) (from : nat) : option nat :=
  indexOf_aux (skipn from s) p from.

(** [s.split('\n')] and [lines.join('\n')]. *)
Fixpoint split_nl (s : str) : list str :=
  match s with
  | [] => [[]]
  | c :: r =>
      if char_eqb c 10%N then [] :: split_nl r
      else match split_nl r with
           | l :: ls => (c :: l) :: ls
           | [] => [[c]]
           end
  end.

Fixpoint join_nl (ls : list str) : str :=
  match ls with
  | [] => []
  | [l] => l
  | l :: ls' => l ++ 10%N :: join_nl ls'
  end.

(** Decimal digits of a [nat], as [`${n}`] prints it. *)
Fixpoint uint_digits (d : Decimal.uint) : str :=
  match d with
  | Decimal.Nil => []
  | Decimal.D0 d => 48%N :: uint_digits d
  | Decimal.D1 d => 49%N :: uint_digits d
  | Decimal.D2 d => 50%N :: uint_digits d
  | Decimal.D3 d => 51%N :: uint_digits d
  | Decimal.D4 d => 52%N :: uint_digits d
  | Decimal.D5 d => 53%N :: uint_digits d
  | Decimal.D6 d => 54%N :: uint_digits d
  | Decimal.D7 d => 55%N :: uint_digits d
  | Decimal.D8 d => 56%N :: uint_digits d
  | Decimal.D9 d => 57%N :: uint_digits d
  end.

Definition nat_to_str (n : nat) : str := uint_digits (Nat.to_uint n).

Definition is_digit (c : char) : bool := (48 <=? c)%N && (c <=? 57)%N.

(** ** PageLexer data model *)

Inductive ItemType := T_frontmatter | T_shortcode | T_summary_divider | T_content.

(** [PageItem]; a shortcode item is a [ShortcodeItem] with its extra fields. *)
Inductive PageItem :=
| Item (type : ItemType) (pos : nat) (val : str)
| Shortcode (pos : nat) (val : str) (name : str) (params : list str)
            (isClosing : bool) (isInline : bool).

Definition item_type (it : PageItem) : ItemType :=
  match it with Item t _ _ => t | Shortcode _ _ _ _ _ _ => T_shortcode end.
Definition item_val (it : PageItem) : str :=
  match it with Item _ _ v => v | Shortcode _ v _ _ _ _ => v end.
Definition item_pos (it : PageItem) : nat :=
  match it with Item _ p _ => p | Shortcode p _ _ _ _ _ => p end.

Record PageLexerResult := {
  items : list PageItem;
  frontmatterFormat : option str;
  hasFrontmatter : bool;
  hasSummaryDivider : bool
}.

(** ** PageLexer.parseShortcode *)

(** Name characters [[a-zA-Z0-9_.-]]. *)
Definition is_name_char (c : char) : bool :=
  ((97 <=? c)%N && (c <=? 122)%N) || ((65 <=? c)%N && (c <=? 90)%N)
  || is_digit c || (c =? 95)%N || (c =? 46)%N || (c =? 45)%N.

Fixpoint ws_prefix_len (s : str) : nat :=
  match s with
  | c :: r => if is_ws c then S (ws_prefix_len r) else 0
  | [] => 0
  end.

Fixpoint name_prefix (s : str) : str :=
  match s with
  | c :: r => if is_name_char c then c :: name_prefix r else []
  | [] => []
  end.

(** A match of [/{{<\s*(\/)?\s*([a-zA-Z0-9_.-]+)/] starting at the head of
    [s]: the captured slash, the captured name and the match length.  The
    greedy quantifiers never need to backtrack here: a name character is
    neither whitespace nor a slash. *)
Definition start_match_at (s : str) : option (bool * str * nat) :=
  if startsWith s (lit "{{<") then
    let s1 := skipn 3 s in
    let w1 := ws_prefix_len s1 in
    let s2 := skipn w1 s1 in
    let '(slash, s3, n3) :=
      match s2 with
      | c :: r => if char_eqb c 47%N then (true, r, 1) else (false, s2, 0)
      | [] => (false, s2, 0)
      end in
    let w2 := ws_prefix_len s3 in
    let nm := name_prefix (skipn w2 s3) in
    match nm with
    | [] => None
    | _ => Some (slash, nm, 3 + w1 + n3 + w2 + length nm)
    end
  else None.

(** [shortcodeStartPattern.exec(input)] with [lastIndex = 0] (the [g] flag):
    the leftmost match, anywhere in [input]; returns the captures and the
    new [lastIndex]. *)
Fixpoint exec_from (s : str) (i : nat) : option (bool * str * nat) :=
  match start_match_at s with
  | Some (sl, nm, len) => Some (sl, nm, i + len)
  | None => match s with [] => None | _ :: r => exec_from r (S i) end
  end.

(** [while (pos < input.length && input[pos] === '}') pos++;] *)
Fixpoint skip_braces (s : str) (pos : nat) : nat :=
  match s with
  | c :: r => if char_eqb c 125%N then skip_braces r (S pos) else pos
  | [] => pos
  end.

(** Scanner state of the parameter loop. *)
Record ScanState := {
  params_acc : list str;
  inline_flag : bool;
  inQuote : bool;
  quoteChar : char;
  currentParam : str
}.

Definition nonempty (s : str) : bool := match s with [] => false | _ => true end.

(** The [while (pos < input.length)] loop of [parseShortcode]: [rest] is
    [input] from [pos] on, [prev] is [input[pos - 1]].  Returns the final
    state, [found] and the final [pos]. *)
Fixpoint scan (rest : str) (prev : char) (pos : nat) (st : ScanState)
  : ScanState * bool * nat :=
  match rest with
  | [] => (st, false, pos)
  | c :: r =>
      let next := match r with n :: _ => Some n | [] => None end in
      let '(Build_ScanState ps il iq qc cur) := st in
      if negb iq then
        if char_eqb c 34%N || char_eqb c 39%N then
          scan r c (S pos) (Build_ScanState ps il true c (cur ++ [c]))
        else if char_eqb c 47%N && (match next with Some n => char_eqb n 62%N | None => false end) then
          (Build_ScanState ps true iq qc cur, true, skip_braces (skipn 1 r) (pos + 2))
        else if char_eqb c 62%N && (match next with Some n => char_eqb n 125%N | None => false end) then
          (st, true, skip_braces (skipn 1 r) (pos + 2))
        else if char_eqb c 32%N || char_eqb c 9%N then
          if nonempty (trim cur) then
            scan r c (S pos) (Build_ScanState (ps ++ [trim cur]) il iq qc [])
          else scan r c (S pos) st
        else scan r c (S pos) (Build_ScanState ps il iq qc (cur ++ [c]))
      else
        if char_eqb c qc && negb (char_eqb prev 92%N) then
          scan r c (S pos) (Build_ScanState (ps ++ [trim (cur ++ [c])]) il false qc [])
        else scan r c (S pos) (Build_ScanState ps il iq qc (cur ++ [c]))
  end.

Record ShortcodeResult := {
  original : str;
  sr_name : str;
  sr_params : list str;
  sr_isClosing : bool;
  sr_isInline : bool
}.

(** [if (currentParam.trim() && !isInline) params.push(currentParam.trim());] *)
Definition finalParams (st : ScanState) : list str :=
  if nonempty (trim (currentParam st)) && negb (inline_flag st)
  then params_acc st ++ [trim (currentParam st)] else params_acc st.

Definition parseShortcode (input : str) : option ShortcodeResult :=
  match exec_from input 0 with
  | None => None
  | Some (isClosing, name, lastIndex) =>
      let '(st, found, pos) :=
        scan (skipn lastIndex input) (nth (lastIndex - 1) input 0%N) lastIndex
             (Build_ScanState [] false false 0%N []) in
      let isInline := inline_flag st in
      let ps := finalParams st in
      if found then
        Some {| original := firstn pos input; sr_name := name; sr_params := ps;
                sr_isClosing := isClosing; sr_isInline := isInline |}
      else None
  end.

(** Whether the parameter loop of [parseShortcode] stops at a terminator
    ([found]) after the match of the start pattern; [false] when the
    pattern does not match. *)
Definition terminator_found (input : str) : bool :=
  match exec_from input 0 with
  | None => false
  | Some (_, _, lastIndex) =>
      let '(_, found, _) :=
        scan (skipn lastIndex input) (nth (lastIndex - 1) input 0%N) lastIndex
             (Build_ScanState [] false false 0%N []) in
      found
  end.

(** A terminator the scanner could recognise: [/>] or [>}]. *)
Fixpoint has_terminator (s : str) : bool :=
  match s with
  | a :: ((b :: _) as r) =>
      (char_eqb a 47%N && char_eqb b 62%N) || (char_eqb a 62%N && char_eqb b 125%N)
      || has_terminator r
  | _ => false
  end.

(** ** PageLexer.parseContentWithShortcodes *)

(** One iteration of the [while (currentPos < content.length)] loop per
    unit of [fuel]; every iteration advances [currentPos]. *)
Fixpoint pcws_loop (fuel : nat) (content : str) (startPos currentPos : nat)
  : list PageItem :=
  match fuel with
  | O => []
  | S fuel' =>
      if currentPos <? length content then
        match indexOf content (lit "{{<") currentPos with
        | None =>
            [Item T_content (startPos + currentPos) (skipn currentPos content)]
        | Some k =>
            (if currentPos <? k
             then [Item T_content (startPos + currentPos) (substring content currentPos k)]
             else [])
            ++ match parseShortcode (skipn k content) with
               | Some r =>
                   Shortcode (startPos + k) (original r) (sr_name r) (sr_params r)
                             (sr_isClosing r) (sr_isInline r)
                   :: pcws_loop fuel' content startPos (k + length (original r))
               | None =>
                   Item T_content (startPos + k) (lit "{{<")
                   :: pcws_loop fuel' content startPos (k + 3)
               end
        end
      else []
  end.

Definition parseContentWithShortcodes (content : str) (startPos : nat) : list PageItem :=
  pcws_loop (S (length content)) content startPos 0.

(** ** PageLexer.processSummaryDividerAndContent *)

(** [$] under the [m] flag: end of input or before a line terminator. *)
Definition at_line_end (s : str) : bool :=
  match s with [] => true | c :: _ => is_lt c end.

(** Backtracking of the final greedy [\s*$]: the longest [j <= k] whitespace
    characters after which [$] holds. *)
Fixpoint best_k (s : str) (k : nat) : option nat :=
  match k with
  | O => if at_line_end s then Some 0 else None
  | S k' => if at_line_end (skipn (S k') s) then Some (S k') else best_k s k'
  end.

(** Length of a match of [<!--\s*more\s*-->\s*$] at the head of [s]. *)
Definition divider_match_at (s : str) : option nat :=
  if startsWith s (lit "<!--") then
    let s1 := skipn 4 s in
    let w1 := ws_prefix_len s1 in
    let s2 := skipn w1 s1 in
    if startsWith s2 (lit "more") then
      let s3 := skipn 4 s2 in
      let w2 := ws_prefix_len s3 in
      let s4 := skipn w2 s3 in
      if startsWith s4 (lit "-->") then
        let s5 := skipn 3 s4 in
        match best_k s5 (ws_prefix_len s5) with
        | Some k => Some (4 + w1 + 4 + w2 + 3 + k)
        | None => None
        end
      else None
    else None
  else None.

(** [content.match(/^<!--\s*more\s*-->\s*$/m)]: the leftmost match whose
    start is at a line start; returns its index and length. *)
Fixpoint divider_search (s : str) (i : nat) (line_start : bool) : option (nat * nat) :=
  match (if line_start then divider_match_at s else None) with
  | Some len => Some (i, len)
  | None =>
      match s with
      | [] => None
      | c :: r => divider_search r (S i) (is_lt c)
      end
  end.

Definition summaryDividerMatch (content : str) : option (nat * nat) :=
  divider_search content 0 true.

Definition processSummaryDividerAndContent (content : str) (startPos : nat) : list PageItem :=
  match summaryDividerMatch content with
  | None => parseContentWithShortcodes content startPos
  | Some (dividerPos, len) =>
      let beforeDivider := substring content 0 dividerPos in
      let m := substring content dividerPos (dividerPos + len) in
      let afterDivider := skipn (dividerPos + len) content in
      parseContentWithShortcodes beforeDivider startPos
      ++ [Item T_summary_divider (startPos + dividerPos) m]
      ++ parseContentWithShortcodes afterDivider (startPos + dividerPos + len)
  end.

(** ** PageLexer.extractFrontmatter *)

Record FrontmatterResult := {
  fm_has : bool;
  fm_format : option str;
  fm_content : str;
  fm_remaining : str
}.

(** [^---\s*$], [^\+\+\+\s*$], [^}}\s*$]: a fence followed only by
    whitespace. *)
Definition fence_line (fence t : str) : bool :=
  startsWith t fence && forallb is_ws (skipn (length fence) t).

(** [firstLine.match(/^(---|\+\+\+|{{\s*$)/)]: the captured group. *)
Definition frontmatterOpen (firstLine : str) : option str :=
  if startsWith firstLine (lit "---") then Some (lit "---")
  else if startsWith firstLine (lit "+++") then Some (lit "+++")
  else if fence_line (lit "{{") firstLine then Some firstLine
  else None.

(** [frontmatterClosePattern[format]]. *)
Definition frontmatterClose (format : str) : option (str -> bool) :=
  if str_eqb format (lit "---") then Some (fence_line (lit "---"))
  else if str_eqb format (lit "+++") then Some (fence_line (lit "+++"))
  else if str_eqb format (lit "{{") then Some (fence_line (lit "}}"))
  else None.

Fixpoint find_close (closeP : str -> bool) (ls : list str) (i : nat) : option nat :=
  match ls with
  | [] => None
  | l :: r => if closeP (trim l) then Some i else find_close closeP r (S i)
  end.

Definition no_frontmatter (content : str) : FrontmatterResult :=
  {| fm_has := false; fm_format := None; fm_content := []; fm_remaining := content |}.

Definition extractFrontmatter (content : str) : FrontmatterResult :=
  let lines := split_nl content in
  match lines with
  | [] => no_frontmatter content
  | firstLine :: rest =>
      match frontmatterOpen (trim firstLine) with
      | None => no_frontmatter content
      | Some format =>
          match frontmatterClose format with
          | None => no_frontmatter content
          | Some closeP =>
              match find_close closeP rest 1 with
              | None => no_frontmatter content
              | Some endIndex =>
                  {| fm_has := true; fm_format := Some format;
                     fm_content := join_nl (firstn (endIndex + 1) lines);
                     fm_remaining := join_nl (skipn (endIndex + 1) lines) |}
              end
          end
      end
  end.

(** ** PageLexer.parse *)

Definition is_divider_item (it : PageItem) : bool :=
  match item_type it with T_summary_divider => true | _ => false end.

Definition parse (content : str) : PageLexerResult :=
  let fr := extractFrontmatter content in
  let '(pre, currentContent, currentPos) :=
    if fm_has fr
    then ([Item T_frontmatter 0 (fm_content fr)], fm_remaining fr, length (fm_content fr) + 1)
    else ([], content, 0) in
  let its := pre ++ processSummaryDividerAndContent currentContent currentPos in
  {| items := its;
     frontmatterFormat := if fm_has fr then fm_format fr else None;
     hasFrontmatter := fm_has fr;
     hasSummaryDivider := existsb is_divider_item its |}.

Definition concat_vals (its : list PageItem) : str := concat (map item_val its).

(** ** JavaScript [Map]s, in insertion order *)

Fixpoint assoc_get {K V} (eqb : K -> K -> bool) (m : list (K * V)) (k : K) : option V :=
  match m with
  | [] => None
  | (k', v) :: r => if eqb k k' then Some v else assoc_get eqb r k
  end.

(** [m.set(k, v)]: an existing key keeps its position. *)
Fixpoint assoc_set {K V} (eqb : K -> K -> bool) (m : list (K * V)) (k : K) (v : V)
  : list (K * V) :=
  match m with
  | [] => [(k, v)]
  | (k', v') :: r => if eqb k k' then (k', v) :: r else (k', v') :: assoc_set eqb r k v
  end.

Definition str_has (s : list str) (x : str) : bool := existsb (str_eqb x) s.

(** [new Set(xs)] iterated: first occurrences, in order. *)
Fixpoint uniq_aux (seen : list str) (xs : list str) : list str :=
  match xs with
  | [] => []
  | x :: r => if str_has seen x then uniq_aux seen r else x :: uniq_aux (seen ++ [x]) r
  end.
Definition uniq (xs : list str) : list str := uniq_aux [] xs.

(** ** ShortcodeRenderer.renderShortcodeItem *)

(** A registered render function either returns a string or throws. *)
Inductive Outcome := Returns (s : str) | Throws (message : str).
Definition ShortcodeFn := list str -> option str -> Outcome.

Record ShortcodeRenderer := {
  shortcodes : list (str * ShortcodeFn);
  sr_onError : option (str -> str -> str)
}.

Definition registerShortcode (r : ShortcodeRenderer) (name : str) (f : ShortcodeFn)
  : ShortcodeRenderer :=
  {| shortcodes := assoc_set str_eqb (shortcodes r) name f; sr_onError := sr_onError r |}.

(** The merged [PageRenderOptions] ([{ ...defaultOptions, ...options }]);
    [onError = None] when the caller gave none. *)
Record PageRenderOptions := {
  preserveFrontmatter : bool;
  showWarnings : bool;
  preserveUnknownShortcodes : bool;
  onError : option (str -> str -> str);
  stepRender : bool;
  markedContent : bool
}.

Definition defaultOptions : PageRenderOptions :=
  {| preserveFrontmatter := false; showWarnings := true; preserveUnknownShortcodes := true;
     onError := None; stepRender := false; markedContent := false |}.

(** [{ stepRender: true }] merged over the defaults. *)
Definition stepOptions : PageRenderOptions :=
  {| preserveFrontmatter := false; showWarnings := true; preserveUnknownShortcodes := true;
     onError := None; stepRender := true; markedContent := false |}.

Definition item_name (it : PageItem) : str :=
  match it with Shortcode _ _ n _ _ _ => n | _ => [] end.
Definition item_params (it : PageItem) : list str :=
  match it with Shortcode _ _ _ ps _ _ => ps | _ => [] end.
Definition item_isClosing (it : PageItem) : bool :=
  match it with Shortcode _ _ _ _ c _ => c | _ => false end.
Definition item_isInline (it : PageItem) : bool :=
  match it with Shortcode _ _ _ _ _ i => i | _ => false end.

(** [content || ''] and the truthiness of [content]. *)
Definition or_empty (c : option str) : str := match c with Some s => s | None => [] end.

Definition renderShortcodeItem (sr : ShortcodeRenderer) (it : PageItem)
    (content : option str) (opts : PageRenderOptions) : str :=
  match assoc_get str_eqb (shortcodes sr) (item_name it) with
  | None =>
      if preserveUnknownShortcodes opts then
        if item_isClosing it then item_val it
        else if nonempty (or_empty content)
        then item_val it ++ or_empty content ++ lit "{{< /" ++ item_name it ++ lit " >}}"
        else item_val it
      else or_empty content
  | Some f =>
      match f (item_params it) content with
      | Returns s => s
      | Throws msg =>
          match (match onError opts with Some h => Some h | None => sr_onError sr end) with
          | Some h => h msg (item_name it)
          | None => lit "Error rendering shortcode " ++ item_name it ++ lit ": " ++ msg
          end
      end
  end.

(** ** PageRenderer.processItems *)

Record ShortcodePair := { p_start : nat; p_end : nat; p_item : PageItem }.

(** First pass: the LIFO matcher.  [stack] has its top at the head. *)
Fixpoint match_loop (its : list PageItem) (i : nat) (stack : list (nat * PageItem))
    (pairs : list ShortcodePair) : list ShortcodePair :=
  match its with
  | [] => pairs
  | it :: r =>
      match it with
      | Shortcode _ _ name _ isClosing isInline =>
          if isClosing then
            match stack with
            | (j, openTag) :: stack' =>
                if str_eqb (item_name openTag) name
                then match_loop r (S i) stack' (pairs ++ [Build_ShortcodePair j i openTag])
                else match_loop r (S i) stack' pairs
            | [] => match_loop r (S i) [] pairs
            end
          else if negb isInline then match_loop r (S i) ((i, it) :: stack) pairs
          else match_loop r (S i) stack pairs
      | Item _ _ _ => match_loop r (S i) stack pairs
      end
  end.

Definition findPairs (its : list PageItem) : list ShortcodePair := match_loop its 0 [] [].

(** [getDepth], over the pairs in the order the matcher recorded them
    (the engine sorts a copy, so the comparator sees that order). *)
Definition getDepth (pairs : list ShortcodePair) (pr : ShortcodePair) : nat :=
  fst (fold_left
         (fun '(d, (cs, ce)) p =>
            if (p_start p <? cs) && (ce <? p_end p) then (S d, (p_start p, p_end p))
            else (d, (cs, ce)))
         pairs (0, (p_start pr, p_end pr))).

(** The comparator: [a] goes strictly before [b]. *)
Definition pair_before (pairs : list ShortcodePair) (a b : ShortcodePair) : bool :=
  let da := getDepth pairs a in
  let db := getDepth pairs b in
  if negb (da =? db) then db <? da else p_start a <? p_start b.

(** A stable sort by the comparator (pair starts are distinct, so every
    correct sort gives this order). *)
Fixpoint insert_by (lt : ShortcodePair -> ShortcodePair -> bool) (x : ShortcodePair)
    (l : list ShortcodePair) : list ShortcodePair :=
  match l with
  | [] => [x]
  | y :: r => if lt y x then y :: insert_by lt x r else x :: l
  end.

Definition sortPairs (pairs : list ShortcodePair) : list ShortcodePair :=
  fold_left (fun acc p => insert_by (pair_before pairs) p acc) pairs [].

(** The observable calls of the shortcode collaborator:
    name, params and inner content. *)
Definition Invocation := (str * list str * option str)%type.

Record PState := {
  st_cache : list (str * str);              (* this.stepRenderCache *)
  st_index : nat;                           (* placeholderIndex *)
  st_processed : list ((nat * nat) * str);  (* processedContent, keyed by range *)
  st_log : list Invocation
}.

Definition range_eqb (a b : nat * nat) : bool := (fst a =? fst b) && (snd a =? snd b).

Definition placeholder_prefix : str := lit "_mdf_sc_".

Section ProcessItems.
Variable sr : ShortcodeRenderer.
Variable markedInstance : str -> str.
Variable opts : PageRenderOptions.
Variable its : list PageItem.
Variable pairs : list ShortcodePair.

Definition call (it : PageItem) (content : option str) (s : PState) : str * PState :=
  (renderShortcodeItem sr it content opts,
   {| st_cache := st_cache s; st_index := st_index s; st_processed := st_processed s;
      st_log := st_log s ++ [(item_name it, item_params it, content)] |}).

(** Rendering of an inline or unmatched tag: its result, or a fresh
    placeholder in step mode. *)
Definition render_single (it : PageItem) (s : PState) : str * PState :=
  let '(rendered, s1) := call it None s in
  if stepRender opts then
    let ph := placeholder_prefix ++ nat_to_str (st_index s1) in
    (ph, {| st_cache := assoc_set str_eqb (st_cache s1) ph rendered;
            st_index := S (st_index s1); st_processed := st_processed s1;
            st_log := st_log s1 |})
  else (rendered, s1).

Definition has_pair_at (i : nat) : bool := existsb (fun p => p_start p =? i) pairs.
Definition find_pair_at (i : nat) : option ShortcodePair :=
  find (fun p => p_start p =? i) pairs.

(** Second pass, the [while (i < pair.end)] loop collecting a pair's inner
    content; every iteration increases [i], [fuel] bounds them. *)
Fixpoint collect (fuel : nat) (i stop : nat) (content : str) (s : PState) : str * PState :=
  match fuel with
  | O => (content, s)
  | S f =>
      if i <? stop then
        match nth_error its i with
        | Some (Shortcode _ _ _ _ isClosing isInline as it) =>
            if isInline || (negb isClosing && negb (has_pair_at i)) then
              let '(v, s') := render_single it s in
              collect f (S i) stop (content ++ v) s'
            else if negb isClosing then
              match find_pair_at i with
              | Some ip =>
                  match assoc_get range_eqb (st_processed s) (p_start ip, p_end ip) with
                  | Some rendered =>
                      if nonempty rendered
                      then collect f (S (p_end ip)) stop (content ++ rendered) s
                      else collect f (S i) stop content s
                  | None => collect f (S i) stop content s
                  end
              | None => collect f (S i) stop content s
              end
            else collect f (S i) stop content s
        | Some (Item t _ v) =>
            let itemVal := match t with
                           | T_content => if markedContent opts then markedInstance v else v
                           | _ => v
                           end in
            collect f (S i) stop (content ++ itemVal) s
        | None => (content, s)
        end
      else (content, s)
  end.

Definition process_pair (acc : list (nat * nat) * PState) (pr : ShortcodePair)
  : list (nat * nat) * PState :=
  let '(processedRanges, s) := acc in
  let range := (p_start pr, p_end pr) in
  if existsb (range_eqb range) processedRanges then acc
  else
    let '(content, s1) := collect (S (length its)) (S (p_start pr)) (p_end pr) [] s in
    let '(rendered, s2) := call (p_item pr) (Some content) s1 in
    if stepRender opts then
      let ph := placeholder_prefix ++ nat_to_str (st_index s2) in
      (processedRanges ++ [range],
       {| st_cache := assoc_set str_eqb (st_cache s2) ph rendered;
          st_index := S (st_index s2);
          st_processed := assoc_set range_eqb (st_processed s2) range ph;
          st_log := st_log s2 |})
    else
      (processedRanges ++ [range],
       {| st_cache := st_cache s2; st_index := st_index s2;
          st_processed := assoc_set range_eqb (st_processed s2) range rendered;
          st_log := st_log s2 |}).

(** Third pass over all items. *)
Fixpoint final_pass (fuel : nat) (i : nat) (s : PState) : list PageItem * PState :=
  match fuel with
  | O => ([], s)
  | S f =>
      match nth_error its i with
      | None => ([], s)
      | Some (Item _ _ _ as it) =>
          let '(rest, s') := final_pass f (S i) s in (it :: rest, s')
      | Some (Shortcode pos _ name _ isClosing isInline as it) =>
          if isInline || (negb isClosing &&
                negb (existsb (fun p => str_eqb (item_name (p_item p)) name && (p_start p =? i)) pairs))
          then
            let '(v, s1) := render_single it s in
            let '(rest, s2) := final_pass f (S i) s1 in
            (Item T_content pos v :: rest, s2)
          else if negb isClosing then
            match find_pair_at i with
            | Some pr =>
                match assoc_get range_eqb (st_processed s) (p_start pr, p_end pr) with
                | Some rendered =>
                    if nonempty rendered then
                      let '(rest, s') := final_pass f (S (p_end pr)) s in
                      (Item T_content pos rendered :: rest, s')
                    else final_pass f (S i) s
                | None => final_pass f (S i) s
                end
            | None => final_pass f (S i) s
            end
          else final_pass f (S i) s
      end
  end.
End ProcessItems.

(** [processItems]: returns the processed items, the new step-render cache
    and the collaborator calls made. *)
Definition processItems (sr : ShortcodeRenderer) (markedInstance : str -> str)
    (its : list PageItem) (opts : PageRenderOptions) (cache : list (str * str))
  : list PageItem * list (str * str) * list Invocation :=
  let pairs0 := findPairs its in
  let pairs := sortPairs pairs0 in
  let cache0 := if stepRender opts then [] else cache in
  let s0 := {| st_cache := cache0; st_index := 0; st_processed := []; st_log := [] |} in
  let '(_, s1) := fold_left (process_pair sr markedInstance opts its pairs) pairs ([], s0) in
  let '(result, s2) := final_pass sr opts its pairs (S (length its)) 0 s1 in
  (result, st_cache s2, st_log s2).

(** ** PageRenderer.render *)

Record PageRenderer := {
  shortcodeRenderer : ShortcodeRenderer;
  markedInstance : str -> str;
  stepRenderCache : list (str * str)
}.

Record PageRenderResult := {
  content : str;
  summary : str;
  res_hasSummaryDivider : bool;
  frontmatter : option str   (* the [{ content: raw }] object, by its raw text *)
}.

Definition parseFrontmatter (lr : PageLexerResult) : option str :=
  if negb (hasFrontmatter lr) then None
  else match frontmatterFormat lr with
       | None => None
       | Some _ =>
           match find (fun it => match item_type it with T_frontmatter => true | _ => false end)
                      (items lr) with
           | Some it => Some (item_val it)
           | None => None
           end
       end.

(** The [for] loop of [renderLexerResult]: content, summary, summaryFound. *)
Fixpoint compose (opts : PageRenderOptions) (its : list PageItem)
    (content summary : str) (summaryFound : bool) : str * str :=
  match its with
  | [] => (content, summary)
  | item :: rest =>
      match item_type item with
      | T_frontmatter =>
          if preserveFrontmatter opts
          then compose opts rest (content ++ item_val item)
                 (if summaryFound then summary else summary ++ item_val item) summaryFound
          else compose opts rest content summary summaryFound
      | T_summary_divider =>
          let c1 := if nonempty content && negb (endsWith content (lit "
")) then content ++ lit "
" else content in
          let c2 := c1 ++ lit "<!-- more -->" in
          let c3 := match rest with
                    | nextItem :: _ =>
                        if negb (startsWith (item_val nextItem) (lit "
")) then c2 ++ lit "
" else c2
                    | [] => c2
                    end in
          compose opts rest c3 summary true
      | _ =>
          compose opts rest (content ++ item_val item)
            (if summaryFound then summary else summary ++ item_val item) summaryFound
      end
  end.

Definition renderLexerResult (pr : PageRenderer) (lr : PageLexerResult) (opts : PageRenderOptions)
  : PageRenderResult * PageRenderer * list Invocation :=
  let '(processedItems, cache', log) :=
    processItems (shortcodeRenderer pr) (markedInstance pr) (items lr) opts (stepRenderCache pr) in
  let pr' := {| shortcodeRenderer := shortcodeRenderer pr; markedInstance := markedInstance pr;
                stepRenderCache := cache' |} in
  let res :=
    match processedItems with
    | [it] =>
        match item_type it with
        | T_summary_divider =>
            {| content := []; summary := []; res_hasSummaryDivider := true; frontmatter := None |}
        | T_content =>
            {| content := item_val it; summary := trim (item_val it);
               res_hasSummaryDivider := false; frontmatter := None |}
        | _ =>
            let '(c, s) := compose opts processedItems [] [] false in
            {| content := c; summary := trimEnd s;
               res_hasSummaryDivider := hasSummaryDivider lr; frontmatter := parseFrontmatter lr |}
        end
    | [] => {| content := []; summary := []; res_hasSummaryDivider := false; frontmatter := None |}
    | _ =>
        let '(c, s) := compose opts processedItems [] [] false in
        {| content := c; summary := trimEnd s;
           res_hasSummaryDivider := hasSummaryDivider lr; frontmatter := parseFrontmatter lr |}
    end in
  (res, pr', log).

Definition render (pr : PageRenderer) (text : str) (opts : PageRenderOptions)
  : PageRenderResult * PageRenderer * list Invocation :=
  renderLexerResult pr (parse text) opts.

(** ** Regular expressions of the finalize pass *)

Fixpoint digit_prefix (s : str) : str :=
  match s with
  | c :: r => if is_digit c then c :: digit_prefix r else []
  | [] => []
  end.

(** A match of [/_mdf_sc_\d+/] at the head of [s] (greedy digits). *)
Definition ph_match_at (s : str) : option str :=
  if startsWith s placeholder_prefix then
    match digit_prefix (skipn (length placeholder_prefix) s) with
    | [] => None
    | d => Some (placeholder_prefix ++ d)
    end
  else None.

(** [s.match(/_mdf_sc_\d+/g)] as a list ([[]] for [null]): leftmost,
    non-overlapping matches; [skip] counts characters still inside the
    previous match. *)
Fixpoint ph_scan (s : str) (skip : nat) : list str :=
  match s with
  | [] => []
  | _ :: r =>
      match skip with
      | S k => ph_scan r k
      | O => match ph_match_at s with
             | Some m => m :: ph_scan r (length m - 1)
             | None => ph_scan r 0
             end
      end
  end.

Definition placeholder_matches (s : str) : list str := ph_scan s 0.

(** GetSubstitution for a pattern without capture groups: [$$], [$&],
    [$`] and [$'] are special, every other [$] is literal. *)
Fixpoint getSubstitution (matched whole : str) (position : nat) (repl : str) : str :=
  match repl with
  | [] => []
  | c :: r =>
      if char_eqb c 36%N then
        match r with
        | d :: r' =>
            if char_eqb d 36%N then 36%N :: getSubstitution matched whole position r'
            else if char_eqb d 38%N then matched ++ getSubstitution matched whole position r'
            else if char_eqb d 96%N then firstn position whole ++ getSubstitution matched whole position r'
            else if char_eqb d 39%N
            then skipn (position + length matched) whole ++ getSubstitution matched whole position r'
            else c :: getSubstitution matched whole position r
        | [] => [c]
        end
      else c :: getSubstitution matched whole position r
  end.

(** [whole.replace(new RegExp(pat, 'g'), repl)] for a pattern [pat] made of
    letters, digits and underscores (a literal pattern). *)
Fixpoint replace_scan (whole : str) (s : str) (position skip : nat) (pat repl : str) : str :=
  match s with
  | [] => []
  | c :: r =>
      match skip with
      | S k => replace_scan whole r (S position) k pat repl
      | O =>
          if nonempty pat && startsWith s pat
          then getSubstitution pat whole position repl
               ++ replace_scan whole r (S position) (length pat - 1) pat repl
          else c :: replace_scan whole r (S position) 0 pat repl
      end
  end.

Definition replaceAll (whole pat repl : str) : str := replace_scan whole whole 0 0 pat repl.

(** [String(undefined)]. *)
Definition js_undefined : str := lit "undefined".

(** ** PageRenderer.finalRender *)

(** [placeholderMap]: entries whose cached value holds placeholders. *)
Definition buildPlaceholderMap (cache : list (str * str)) : list (str * list str) :=
  fold_left (fun m '(ph, c) =>
               match placeholder_matches c with
               | [] => m
               | nested => assoc_set str_eqb m ph (uniq nested)
               end) cache [].

(** [calculateDepth(placeholder, visited)], threading the memo table
    [placeholderDepth].  [fuel] bounds the recursion depth; [None] means it
    ran out. *)
Fixpoint calculateDepth (fuel : nat) (pmap : list (str * list str)) (ph : str)
    (visited : list str) (memo : list (str * nat)) : option (nat * list (str * nat)) :=
  match fuel with
  | O => None
  | S f =>
      if str_has visited ph then Some (0, memo)
      else
        let visited' := visited ++ [ph] in
        match assoc_get str_eqb memo ph with
        | Some d => Some (d, memo)
        | None =>
            match assoc_get str_eqb pmap ph with
            | None | Some [] => Some (0, assoc_set str_eqb memo ph 0)
            | Some nested =>
                let fix loop (ns : list str) (maxDepth : nat) (memo : list (str * nat))
                  : option (nat * list (str * nat)) :=
                  match ns with
                  | [] => Some (maxDepth, memo)
                  | n :: ns' =>
                      match calculateDepth f pmap n visited' memo with
                      | None => None
                      | Some (d, memo') => loop ns' (Nat.max maxDepth d) memo'
                      end
                  end in
                match loop nested 0 memo with
                | None => None
                | Some (maxDepth, memo') =>
                    Some (S maxDepth, assoc_set str_eqb memo' ph (S maxDepth))
                end
            end
        end
  end.

(** The loop [for (placeholder of cache.keys()) if (!has) calculateDepth(placeholder)]. *)
Fixpoint depth_all (fuel : nat) (pmap : list (str * list str)) (keys : list str)
    (memo : list (str * nat)) : option (list (str * nat)) :=
  match keys with
  | [] => Some memo
  | k :: ks =>
      match assoc_get str_eqb memo k with
      | Some _ => depth_all fuel pmap ks memo
      | None =>
          match calculateDepth fuel pmap k [] memo with
          | None => None
          | Some (_, memo') => depth_all fuel pmap ks memo'
          end
      end
  end.

Definition depth_of (memo : list (str * nat)) (k : str) : nat :=
  match assoc_get str_eqb memo k with Some d => d | None => 0 end.

(** Stable sort of the keys by ascending depth. *)
Fixpoint insert_key (memo : list (str * nat)) (x : str) (l : list str) : list str :=
  match l with
  | [] => [x]
  | y :: r => if depth_of memo x <? depth_of memo y then x :: l else y :: insert_key memo x r
  end.

Definition sortKeys (memo : list (str * nat)) (keys : list str) : list str :=
  fold_left (fun acc k => insert_key memo k acc) keys [].

(** Substitution of every nested placeholder of one entry. *)
Definition flatten_entry (cache processedCache : list (str * str)) (c : str) : str :=
  fold_left (fun pc n =>
               let replacement :=
                 match assoc_get str_eqb processedCache n with
                 | Some v => v
                 | None => match assoc_get str_eqb cache n with Some v => v | None => js_undefined end
                 end in
               replaceAll pc n replacement)
            (uniq (placeholder_matches c)) c.

Definition processNestedInCache (cache : list (str * str)) : option (list (str * str)) :=
  let pmap := buildPlaceholderMap cache in
  match depth_all (S (length pmap)) pmap (map fst cache) [] with
  | None => None
  | Some memo =>
      let sorted := sortKeys memo (map fst cache) in
      Some (fold_left (fun processedCache ph =>
                         let c := match assoc_get str_eqb cache ph with Some v => v | None => js_undefined end in
                         match placeholder_matches c with
                         | [] => assoc_set str_eqb processedCache ph c
                         | _ => assoc_set str_eqb processedCache ph (flatten_entry cache processedCache c)
                         end) sorted [])
  end.

Definition processNestedPlaceholders (cache : list (str * str)) (content : str) : str :=
  fold_left (fun pc ph =>
               match assoc_get str_eqb cache ph with
               | Some v => replaceAll pc ph v
               | None => pc
               end) (placeholder_matches content) content.

(** [finalRender(content)]: the output and the renderer with its cache
    replaced by the flattened one. *)
Definition finalRender (pr : PageRenderer) (text : str) : option (str * PageRenderer) :=
  match stepRenderCache pr with
  | [] => Some (text, pr)
  | cache =>
      match processNestedInCache cache with
      | None => None
      | Some cache' =>
          Some (processNestedPlaceholders cache' text,
                {| shortcodeRenderer := shortcodeRenderer pr; markedInstance := markedInstance pr;
                   stepRenderCache := cache' |})
      end
  end.

(** [getProcessedCacheContent(placeholder)]: preprocess the cache, then
    look the placeholder up ([None] for [null]).  The outer [option] is
    the fuel of [processNestedInCache]. *)
Definition getProcessedCacheContent (pr : PageRenderer) (ph : str)
  : option (option str * PageRenderer) :=
  match processNestedInCache (stepRenderCache pr) with
  | None => None
  | Some cache' =>
      Some (assoc_get str_eqb cache' ph,
            {| shortcodeRenderer := shortcodeRenderer pr; markedInstance := markedInstance pr;
               stepRenderCache := cache' |})
  end.

(** [getStepRenderCache()]: preprocess the cache and return it. *)
Definition getStepRenderCache (pr : PageRenderer) : option (list (str * str) * PageRenderer) :=
  match processNestedInCache (stepRenderCache pr) with
  | None => None
  | Some cache' =>
      Some (cache', {| shortcodeRenderer := shortcodeRenderer pr; markedInstance := markedInstance pr;
                       stepRenderCache := cache' |})
  end.

(** ** ShortcodeRenderer: batch registration and the base data provider *)

(** [registerShortcodes(shortcodes)]: [Object.entries] in order. *)
Definition registerShortcodes (r : ShortcodeRenderer) (entries : list (str * ShortcodeFn))
  : ShortcodeRenderer :=
  fold_left (fun r' '(name, renderFn) => registerShortcode r' name renderFn) entries r.

(** [s.split(sep)] for a one-character separator. *)
Fixpoint split_on (sep : char) (s : str) : list str :=
  match s with
  | [] => [[]]
  | c :: r =>
      if char_eqb c sep then [] :: split_on sep r
      else match split_on sep r with
           | l :: ls => (c :: l) :: ls
           | [] => [[c]]
           end
  end.

Definition is_quote (c : char) : bool := char_eqb c 34%N || char_eqb c 39%N.

(** The second alternative of the regular expression below: a final
    double or single quote. *)
Definition strip_trailing_quote (s : str) : str :=
  match rev s with
  | c :: r => if is_quote c then rev r else s
  | [] => s
  end.

(** The [replace] with the global regular expression of two alternatives,
    a leading double or single quote or a final one: it removes a leading
    quote and, after it, a final quote. *)
Definition strip_quotes (s : str) : str :=
  match s with
  | c :: r => if is_quote c then strip_trailing_quote r else strip_trailing_quote s
  | [] => []
  end.

(** The argument of [Get]: a (non-negative integer) number or a string. *)
Inductive GetKey := KeyIndex (n : nat) | KeyName (name : str).

(** [createBaseDataProvider(params, content).Get(paramName)]; [None] is
    [undefined].  [split('=')[1]] always exists here, since the found
    parameter contains ['=']. *)
Definition dp_Get (params : list str) (k : GetKey) : option str :=
  match k with
  | KeyIndex n => nth_error params n
  | KeyName name =>
      match find (fun p => startsWith p (name ++ [61%N])) params with
      | Some namedParam => Some (strip_quotes (nth 1 (split_on 61%N namedParam) []))
      | None => None
      end
  end.

(** ** Concrete renderers and pages *)

Definition wrap (pre post : str) : ShortcodeFn := fun _ c => Returns (pre ++ or_empty c ++ post).

Definition emptyRegistry : ShortcodeRenderer := {| shortcodes := []; sr_onError := None |}.

(** [new PageRenderer(shortcodeRenderer)]; [marked] is the markdown engine,
    only called when [markedContent] is set. *)
Definition newPageRenderer (sr : ShortcodeRenderer) (marked : str -> str) : PageRenderer :=
  {| shortcodeRenderer := sr; markedInstance := marked; stepRenderCache := [] |}.

Definition rendered_content (x : PageRenderResult * PageRenderer * list Invocation) : str :=
  content (fst (fst x)).

Definition renderer_after (x : PageRenderResult * PageRenderer * list Invocation) : PageRenderer :=
  snd (fst x).

Definition invocations (x : PageRenderResult * PageRenderer * list Invocation) : list Invocation :=
  snd x.

(** [render(text)] followed by [finalRender] on the same instance. *)
Definition two_step (pr : PageRenderer) (text : str) : option str :=
  let x := render pr text stepOptions in
  option_map fst (finalRender (renderer_after x) (rendered_content x)).

Fixpoint repeat_str (n : nat) (s : str) : str :=
  match n with O => [] | S n' => s ++ repeat_str n' s end.

Definition reg_nest (innerFn : ShortcodeFn) : ShortcodeRenderer :=
  registerShortcode (registerShortcode emptyRegistry (lit "outer") (wrap [] [])) (lit "inner") innerFn.

Definition text_nest : str := lit "{{< outer >}}{{< inner >}}X{{< /inner >}}{{< /outer >}}".

Definition reg_e : ShortcodeRenderer := registerShortcode emptyRegistry (lit "e") (fun _ _ => Returns []).
Definition reg_k : ShortcodeRenderer := registerShortcode emptyRegistry (lit "k") (fun _ _ => Returns (lit "K")).

(** A page with eleven inline shortcodes. *)
Definition text_k11 : str := repeat_str 11 (lit "{{< k />}} ").

Definition with_cache (pr : PageRenderer) (cache : list (str * str)) : PageRenderer :=
  {| shortcodeRenderer := shortcodeRenderer pr; markedInstance := markedInstance pr;
     stepRenderCache := cache |}.

(** What the spec requires of a recorded pair. *)
Definition pair_ok (its : list PageItem) (p : ShortcodePair) : Prop :=
  p_start p < p_end p
  /\ nth_error its (p_start p) = Some (p_item p)
  /\ item_type (p_item p) = T_shortcode
  /\ item_isInline (p_item p) = false
  /\ item_isClosing (p_item p) = false
  /\ exists closer, nth_error its (p_end p) = Some closer
                   /\ item_isClosing closer = true
                   /\ item_name closer = item_name (p_item p).

Definition stack_ok (its : list PageItem) (i : nat) (stack : list (nat * PageItem)) : Prop :=
  forall j op, In (j, op) stack ->
    j < i /\ nth_error its j = Some op /\ item_type op = T_shortcode
    /\ item_isInline op = false /\ item_isClosing op = false.

(** * Properties *)

Lemma str_eqb_eq : forall a b, str_eqb a b = true <-> a = b.
Proof.
  induction a as [|x a IH]; destruct b as [|y b]; simpl; try (split; congruence).
  unfold char_eqb. rewrite andb_true_iff, N.eqb_eq, IH.
  split; [intros [-> ->]; reflexivity | intros H; injection H; auto].
Qed.

(** ** C1: one-step and two-step rendering *)

(** C1 (code defect).  On one instance with [e] registered to render the
    empty string, [render] gives ["X"] for [{{< e >}}X{{< /e >}}] (the empty
    result is taken for "not yet rendered" and the pair's inner items are
    emitted instead), while [render] with [stepRender] followed by
    [finalRender] gives [""].  With eleven inline tags the placeholder
    [_mdf_sc_1] also rewrites inside [_mdf_sc_10], so the two paths differ
    as well. *)
Theorem C1_step_render_diverges : forall mk : str -> str,
  let pr := newPageRenderer reg_e mk in
  let x := render pr (lit "{{< e >}}X{{< /e >}}") defaultOptions in
  rendered_content x = lit "X"
  /\ two_step (renderer_after x) (lit "{{< e >}}X{{< /e >}}") = Some []
  /\ rendered_content (render (newPageRenderer reg_k mk) text_k11 defaultOptions)
     = lit "K K K K K K K K K K K "
  /\ two_step (newPageRenderer reg_k mk) text_k11 = Some (lit "K K K K K K K K K K K0 ").
Proof. intros mk. vm_compute. repeat split; reflexivity. Qed.

(** ** C2: inner content of nested pairs *)

(** C2 (code defect).  For [{{< outer >}}{{< inner >}}X{{< /inner >}}{{< /outer >}}]
    with [outer] forwarding its content, [outer] is called with
    ["<i>X</i>"] when [inner] wraps in [<i>]; when [inner] renders to the
    empty string, [outer] is called with ["X"], the inner pair's raw inner
    content, instead of the inner pair's rendering. *)
Theorem C2_outer_receives_inner_rendering : forall mk : str -> str,
  invocations (render (newPageRenderer (reg_nest (wrap (lit "<i>") (lit "</i>"))) mk)
                      text_nest defaultOptions)
  = [(lit "inner", [], Some (lit "X")); (lit "outer", [], Some (lit "<i>X</i>"))]
  /\ invocations (render (newPageRenderer (reg_nest (fun _ _ => Returns [])) mk)
                         text_nest defaultOptions)
  = [(lit "inner", [], Some (lit "X")); (lit "outer", [], Some (lit "X"))].
Proof. intros mk. vm_compute. split; reflexivity. Qed.

(** ** C4: placeholder substitution *)

(** C4 (code defect).  [finalRender] replaces [new RegExp(placeholder, 'g')],
    which also matches the head of a longer id: after a step render of eleven
    inline tags, [_mdf_sc_10] becomes ["K0"] instead of ["K"]; and with the
    cache [{_mdf_sc_1: "A"}] the id [_mdf_sc_12], not a key, is rewritten to
    ["A2"]. *)
Theorem C4_placeholder_prefix_collision : forall mk : str -> str,
  let x := render (newPageRenderer reg_k mk) text_k11 stepOptions in
  rendered_content x = lit "_mdf_sc_0 _mdf_sc_1 _mdf_sc_2 _mdf_sc_3 _mdf_sc_4 _mdf_sc_5 _mdf_sc_6 _mdf_sc_7 _mdf_sc_8 _mdf_sc_9 _mdf_sc_10 "
  /\ option_map fst (finalRender (renderer_after x) (rendered_content x))
     = Some (lit "K K K K K K K K K K K0 ")
  /\ option_map fst (finalRender (with_cache (newPageRenderer reg_k mk) [(lit "_mdf_sc_1", lit "A")])
                                 (lit "_mdf_sc_12 _mdf_sc_1"))
     = Some (lit "A2 A").
Proof. intros mk. vm_compute. repeat split; reflexivity. Qed.

(** ** C6: unmatched closing tags *)

(** C6 (code defect).  With [preserveUnknownShortcodes = true] (the default)
    the stray closer of [a{{< /x >}}b] is dropped: the content is ["ab"]. *)
Theorem C6_unmatched_closer_dropped : forall mk : str -> str,
  preserveUnknownShortcodes defaultOptions = true
  /\ rendered_content (render (newPageRenderer emptyRegistry mk) (lit "a{{< /x >}}b") defaultOptions)
     = lit "ab"
  /\ rendered_content (render (newPageRenderer (registerShortcode emptyRegistry (lit "x") (wrap [] []))
                                                mk) (lit "a{{< /x >}}b") defaultOptions)
     = lit "ab".
Proof. intros mk. vm_compute. repeat split; reflexivity. Qed.

(** ** C10: pending parameter text before [/>] *)

(** C10.  When the scanner meets [/>] outside quotes, the tag is inline and
    the parameter text accumulated since the last blank is not stored:
    [{{< x a/>}}] has no parameter, [{{< x a />}}] has ["a"]. *)
Theorem C10_inline_terminator_drops_pending_param :
  (forall ps cur qc r prev pos,
     let '(st, found, _) := scan ([47%N; 62%N] ++ r) prev pos (Build_ScanState ps false false qc cur) in
     found = true /\ inline_flag st = true /\ finalParams st = ps)
  /\ items (parse (lit "{{< x a/>}}")) = [Shortcode 0 (lit "{{< x a/>}}") (lit "x") [] false true]
  /\ items (parse (lit "{{< x a />}}"))
     = [Shortcode 0 (lit "{{< x a />}}") (lit "x") [lit "a"] false true].
Proof.
  split; [|split; vm_compute; reflexivity].
  intros ps cur qc r prev pos. simpl.
  unfold finalParams; simpl. rewrite andb_false_r. auto.
Qed.

(** ** C5 and C7: the tag matcher *)

Lemma skipn_cons_nth {A} : forall i (l r : list A) x,
  skipn i l = x :: r -> nth_error l i = Some x /\ skipn (S i) l = r.
Proof.
  induction i as [|i IH]; intros l r x H; destruct l as [|y l]; simpl in *;
    try discriminate.
  - injection H as -> ->. auto.
  - apply IH in H. exact H.
Qed.

Lemma stack_ok_succ : forall its i stack,
  stack_ok its i stack -> stack_ok its (S i) stack.
Proof.
  intros its i stack H j op Hin. destruct (H j op Hin) as (? & ? & ? & ? & ?).
  repeat split; auto; lia.
Qed.

Lemma stack_ok_tail : forall its i e stack,
  stack_ok its i (e :: stack) -> stack_ok its i stack.
Proof. intros its i e stack H j op Hin. apply H. right. exact Hin. Qed.

Lemma match_loop_inv : forall its r i stack pairs,
  skipn i its = r -> stack_ok its i stack -> Forall (pair_ok its) pairs ->
  Forall (pair_ok its) (match_loop r i stack pairs).
Proof.
  intros its r. induction r as [|it r IH]; intros i stack pairs Hr Hs Hp; simpl; auto.
  destruct (skipn_cons_nth _ _ _ _ Hr) as [Hnth Hnext].
  destruct it as [t pos v | pos v name ps cl il].
  - apply IH; auto using stack_ok_succ.
  - destruct cl.
    + destruct stack as [|[j op] stack'].
      * apply IH; auto using stack_ok_succ.
      * destruct (str_eqb (item_name op) name) eqn:Hn.
        -- apply IH; auto.
           ++ apply stack_ok_succ, (stack_ok_tail _ _ _ _ Hs).
           ++ apply Forall_app; split; auto. constructor; auto.
              destruct (Hs j op (or_introl eq_refl)) as (Hj & Hop & Ht & Hi & Hc).
              unfold pair_ok; simpl. repeat split; auto.
              exists (Shortcode pos v name ps true il). repeat split; auto.
              apply str_eqb_eq in Hn. simpl. auto.
        -- apply IH; auto. apply stack_ok_succ, (stack_ok_tail _ _ _ _ Hs).
    + destruct il; simpl.
      * apply IH; auto using stack_ok_succ.
      * apply IH; auto.
        intros j op [Heq | Hin].
        -- injection Heq as <- <-. repeat split; auto.
        -- destruct (Hs j op Hin) as (? & ? & ? & ? & ?). repeat split; auto; lia.
Qed.

(** C5.  Every pair recorded by the matcher has its start before its end,
    an opening, non-inline shortcode token at its start and a closing token
    of the same name at its end; for [{{< x />}}...{{< /x >}}] no pair is
    recorded, so the closer stays unmatched. *)
Theorem C5_pairs_well_formed : forall its : list PageItem,
  Forall (pair_ok its) (findPairs its)
  /\ findPairs (items (parse (lit "{{< x />}}...{{< /x >}}"))) = [].
Proof.
  intros its. split.
  - apply match_loop_inv; auto. intros j op [].
  - vm_compute. reflexivity.
Qed.

Definition crossing : str := lit "{{< a >}}{{< b >}}{{< /a >}}{{< /b >}}".

(** C7.  A closer whose popped opener has another name drops that opener:
    nothing is recorded and it is not pushed back.  For the crossing input
    [{{< a >}}{{< b >}}{{< /a >}}{{< /b >}}] (two openers, two closers) no pair
    is recorded at all. *)
Theorem C7_mismatched_closer_discards_opener :
  forall r i j op stack pairs pos v name ps il,
  item_name op <> name ->
  match_loop (Shortcode pos v name ps true il :: r) i ((j, op) :: stack) pairs
  = match_loop r (S i) stack pairs
  /\ map item_isClosing (items (parse crossing)) = [false; false; true; true]
  /\ map item_type (items (parse crossing)) = [T_shortcode; T_shortcode; T_shortcode; T_shortcode]
  /\ findPairs (items (parse crossing)) = [].
Proof.
  intros r i j op stack pairs pos v name ps il Hne.
  split; [|vm_compute; repeat split; reflexivity].
  simpl. destruct (str_eqb (item_name op) name) eqn:Hn; [|reflexivity].
  apply str_eqb_eq in Hn. contradiction.
Qed.

Lemma C7_witness :
  item_name (Shortcode 9 (lit "{{< b >}}") (lit "b") [] false false) <> lit "a" /\
  match_loop [Shortcode 18 (lit "{{< /a >}}") (lit "a") [] true false;
              Shortcode 28 (lit "{{< /b >}}") (lit "b") [] true false] 2
    [(1, Shortcode 9 (lit "{{< b >}}") (lit "b") [] false false);
     (0, Shortcode 0 (lit "{{< a >}}") (lit "a") [] false false)] []
  = match_loop [Shortcode 28 (lit "{{< /b >}}") (lit "b") [] true false] 3
      [(0, Shortcode 0 (lit "{{< a >}}") (lit "a") [] false false)] [].
Proof.
  assert (H : item_name (Shortcode 9 (lit "{{< b >}}") (lit "b") [] false false) <> lit "a")
    by (vm_compute; congruence).
  split; [exact H|].
  exact (proj1 (C7_mismatched_closer_discards_opener
            [Shortcode 28 (lit "{{< /b >}}") (lit "b") [] true false] 2 1
            (Shortcode 9 (lit "{{< b >}}") (lit "b") [] false false)
            [(0, Shortcode 0 (lit "{{< a >}}") (lit "a") [] false false)] [] 18
            (lit "{{< /a >}}") (lit "a") [] false H)).
Defined.

(** ** C9: an unterminated opening delimiter *)

Lemma skip_braces_bounds : forall s p, p <= skip_braces s p <= p + length s.
Proof.
  induction s as [|c s IH]; intros p; simpl; [lia|].
  destruct (char_eqb c 125%N); [specialize (IH (S p)); lia | lia].
Qed.

Lemma has_terminator_cons2 : forall a b r,
  has_terminator (a :: b :: r)
  = (char_eqb a 47%N && char_eqb b 62%N) || (char_eqb a 62%N && char_eqb b 125%N)
    || has_terminator (b :: r).
Proof. reflexivity. Qed.

Lemma has_terminator_cons : forall c r,
  has_terminator r = true -> has_terminator (c :: r) = true.
Proof.
  intros c r H. destruct r as [|b r']; [discriminate|].
  rewrite has_terminator_cons2, H, orb_true_r. reflexivity.
Qed.

Lemma has_terminator_skipn : forall n s,
  has_terminator (skipn n s) = true -> has_terminator s = true.
Proof.
  induction n as [|n IH]; intros s H; [exact H|].
  destruct s as [|c s]; [discriminate|]. simpl in H.
  apply has_terminator_cons, IH, H.
Qed.

(** The scanner stops with [found] only on a terminator, and inside the
    scanned text. *)
Lemma scan_found : forall rest prev pos st st' q,
  scan rest prev pos st = (st', true, q) ->
  has_terminator rest = true /\ pos < q <= pos + length rest.
Proof.
  induction rest as [|c r IH]; intros prev pos st st' q H; [discriminate|].
  destruct st as [ps il iq qc cur]. simpl in H.
  repeat (match type of H with context [if ?b then _ else _] =>
            let E := fresh "E" in destruct b eqn:E end);
    try discriminate H.
  all: first
    [ apply IH in H as [H1 H2]; split; [apply has_terminator_cons; exact H1 | simpl; lia]
    | injection H as _ <-; destruct r as [|n r'];
      [ match goal with E : _ && _ = true |- _ =>
          rewrite andb_false_r in E; discriminate E end
      | pose proof (skip_braces_bounds r' (pos + 2)); split;
        [ rewrite has_terminator_cons2;
          match goal with E : _ && _ = true |- _ => rewrite E end;
          rewrite ?orb_true_r; reflexivity
        | simpl; lia ] ] ].
Qed.

Lemma exec_from_bound : forall s i sl nm li,
  exec_from s i = Some (sl, nm, li) -> i + 3 <= li.
Proof.
  induction s as [|c s IH]; intros i sl nm li H; simpl in H.
  - unfold start_match_at in H. simpl in H. discriminate.
  - destruct (start_match_at (c :: s)) as [[[sl' nm'] len]|] eqn:E.
    + injection H as _ _ <-. unfold start_match_at in E.
      destruct (startsWith (c :: s) (lit "{{<")); [|discriminate].
      destruct (match skipn (ws_prefix_len (skipn 3 (c :: s))) (skipn 3 (c :: s)) with
                | [] => _ | _ => _ end) as [[? ?] ?].
      destruct (name_prefix _); [discriminate|]. injection E as _ _ <-. lia.
    + apply IH in H. lia.
Qed.

Lemma parseShortcode_terminator : forall input r,
  parseShortcode input = Some r -> has_terminator (skipn 3 input) = true.
Proof.
  intros input r H. unfold parseShortcode in H.
  destruct (exec_from input 0) as [[[sl nm] li]|] eqn:E; [|discriminate].
  apply exec_from_bound in E.
  destruct (scan (skipn li input) (nth (li - 1) input 0%N) li (Build_ScanState [] false false 0%N []))
    as [[st found] pos] eqn:S.
  destruct found; [|discriminate].
  apply scan_found in S as [S _].
  replace li with ((li - 3) + 3) in S by lia. rewrite <- skipn_skipn in S.
  exact (has_terminator_skipn _ _ S).
Qed.

Lemma indexOf_aux_nonempty : forall s p i k,
  p <> [] -> indexOf_aux s p i = Some k -> s <> [].
Proof.
  intros s p i k Hp H ->. destruct p; [contradiction|]. discriminate H.
Qed.

Lemma skipn_nonempty_lt {A} : forall n (l : list A), skipn n l <> [] -> n < length l.
Proof.
  induction n as [|n IH]; intros l H; destruct l as [|x l]; simpl in *;
    try (contradiction || lia).
  apply IH in H. lia.
Qed.

Lemma parseShortcode_no_terminator : forall input,
  terminator_found input = false -> parseShortcode input = None.
Proof.
  intros input H. unfold terminator_found, parseShortcode in *.
  destruct (exec_from input 0) as [[[sl nm] li]|]; [|reflexivity].
  destruct (scan _ _ _ _) as [[st found] pos]. subst found. reflexivity.
Qed.

(** A text without any [/>] or [>}] after its opening [{{<] gives the
    scanner no terminator. *)
Lemma no_terminator_text : forall input,
  has_terminator (skipn 3 input) = false -> terminator_found input = false.
Proof.
  intros input H. unfold terminator_found.
  destruct (exec_from input 0) as [[[sl nm] li]|] eqn:E; [|reflexivity].
  apply exec_from_bound in E.
  destruct (scan (skipn li input) (nth (li - 1) input 0%N) li (Build_ScanState [] false false 0%N []))
    as [[st found] pos] eqn:S.
  destruct found; [|reflexivity].
  apply scan_found in S as [S _].
  replace li with ((li - 3) + 3) in S by lia. rewrite <- skipn_skipn in S.
  rewrite (has_terminator_skipn _ _ S) in H. discriminate.
Qed.

(** C9.  When the next [{{<] from [currentPos] starts at [k] and the
    scanner of [parseShortcode] recognises no terminator after it (it
    reaches the end of the text without an unquoted [/>] or [>}]; a [>}]
    inside quotes does not count), one iteration of the scanning loop
    emits the text before it, then a content token that is exactly
    ["{{<"] at offset [k], and the loop continues at [k + 3].  (The lexer
    is a total function: it has no failure result.) *)
Theorem C9_unterminated_open_is_literal :
  forall fuel content startPos currentPos k,
  indexOf content (lit "{{<") currentPos = Some k ->
  terminator_found (skipn k content) = false ->
  pcws_loop (S fuel) content startPos currentPos
  = (if currentPos <? k
     then [Item T_content (startPos + currentPos) (substring content currentPos k)]
     else [])
    ++ Item T_content (startPos + k) (lit "{{<") :: pcws_loop fuel content startPos (k + 3).
Proof.
  intros fuel content startPos currentPos k Hk Ht.
  assert (Hlt : currentPos < length content).
  { apply skipn_nonempty_lt.
    exact (indexOf_aux_nonempty _ (lit "{{<") currentPos k ltac:(discriminate) Hk). }
  simpl pcws_loop. apply Nat.ltb_lt in Hlt. rewrite Hlt, Hk.
  rewrite (parseShortcode_no_terminator _ Ht). reflexivity.
Qed.

(** The text [ab{{< x 'a>}}]: the [>}] lies inside the quoted parameter. *)
Lemma C9_witness :
  indexOf (lit "ab{{< x 'a>}}") (lit "{{<") 0 = Some 2
  /\ terminator_found (skipn 2 (lit "ab{{< x 'a>}}")) = false
  /\ pcws_loop 20 (lit "ab{{< x 'a>}}") 0 0
     = [Item T_content 0 (lit "ab")] ++ Item T_content 2 (lit "{{<")
       :: pcws_loop 19 (lit "ab{{< x 'a>}}") 0 5.
Proof.
  assert (H1 : indexOf (lit "ab{{< x 'a>}}") (lit "{{<") 0 = Some 2) by reflexivity.
  assert (H2 : terminator_found (skipn 2 (lit "ab{{< x 'a>}}")) = false) by (vm_compute; reflexivity).
  split; [exact H1|]. split; [exact H2|].
  exact (C9_unterminated_open_is_literal 19 (lit "ab{{< x 'a>}}") 0 0 2 H1 H2).
Defined.

(** ** C3: lexing loses no text *)

Lemma concat_vals_app : forall a b, concat_vals (a ++ b) = concat_vals a ++ concat_vals b.
Proof. intros a b. unfold concat_vals. rewrite map_app, concat_app. reflexivity. Qed.

Lemma startsWith_split : forall p s, startsWith s p = true -> s = p ++ skipn (length p) s.
Proof.
  induction p as [|x p IH]; intros s H; [reflexivity|].
  destruct s as [|y s]; [discriminate|]. simpl in H |- *.
  apply andb_prop in H as [H1 H2]. unfold char_eqb in H1. apply N.eqb_eq in H1. subst y.
  f_equal. apply IH, H2.
Qed.

Lemma startsWith_length : forall p s, startsWith s p = true -> length p <= length s.
Proof.
  intros p s H. apply startsWith_split in H. rewrite H, length_app. lia.
Qed.

Lemma indexOf_aux_eq : forall s p i,
  indexOf_aux s p i
  = if startsWith s p then Some i
    else match s with [] => None | _ :: r => indexOf_aux r p (S i) end.
Proof. intros s p i. destruct s; reflexivity. Qed.

Lemma indexOf_aux_spec : forall s p i k,
  indexOf_aux s p i = Some k -> i <= k /\ startsWith (skipn (k - i) s) p = true.
Proof.
  induction s as [|c s IH]; intros p i k H; rewrite indexOf_aux_eq in H.
  - destruct (startsWith [] p) eqn:E; [|discriminate]. injection H as <-.
    rewrite Nat.sub_diag. split; [lia | exact E].
  - destruct (startsWith (c :: s) p) eqn:E.
    + injection H as <-. rewrite Nat.sub_diag. split; [lia | exact E].
    + apply IH in H as [H1 H2]. split; [lia|].
      replace (k - i) with (S (k - S i)) by lia. exact H2.
Qed.

Lemma indexOf_spec : forall s p from k,
  indexOf s p from = Some k -> from <= k /\ startsWith (skipn k s) p = true.
Proof.
  intros s p from k H. apply indexOf_aux_spec in H as [H1 H2].
  rewrite skipn_skipn in H2. replace (k - from + from) with k in H2 by lia. auto.
Qed.

Lemma parseShortcode_original : forall input r,
  parseShortcode input = Some r ->
  exists pos, original r = firstn pos input /\ 0 < pos <= length input.
Proof.
  intros input r H. unfold parseShortcode in H.
  destruct (exec_from input 0) as [[[sl nm] li]|] eqn:E; [|discriminate].
  destruct (scan (skipn li input) (nth (li - 1) input 0%N) li (Build_ScanState [] false false 0%N []))
    as [[st found] pos] eqn:S.
  destruct found; [|discriminate]. injection H as <-.
  apply scan_found in S as [S1 S2].
  assert (li < length input).
  { destruct (Nat.lt_ge_cases li (length input)) as [?|Hge]; [assumption|].
    rewrite skipn_all2 in S1 by exact Hge. discriminate. }
  rewrite length_skipn in S2. exists pos. simpl. split; [reflexivity | lia].
Qed.

(** The scanning loop of [parseContentWithShortcodes] tiles the text from
    [currentPos] on. *)
Lemma pcws_loop_lossless : forall fuel content startPos currentPos,
  length content - currentPos < fuel ->
  concat_vals (pcws_loop fuel content startPos currentPos) = skipn currentPos content.
Proof.
  induction fuel as [|fuel IH]; intros content startPos cur Hf; [lia|].
  simpl pcws_loop. destruct (cur <? length content) eqn:Hlt.
  2:{ apply Nat.ltb_ge in Hlt. rewrite skipn_all2 by exact Hlt. reflexivity. }
  apply Nat.ltb_lt in Hlt.
  destruct (indexOf content (lit "{{<") cur) as [k|] eqn:Hk.
  2:{ unfold concat_vals. simpl. rewrite app_nil_r. reflexivity. }
  apply indexOf_spec in Hk as [Hck Hsw].
  pose proof (startsWith_length _ _ Hsw) as Hlen. rewrite length_skipn in Hlen.
  rewrite concat_vals_app.
  assert (Hpre : concat_vals (if cur <? k
                              then [Item T_content (startPos + cur) (substring content cur k)]
                              else []) = firstn (k - cur) (skipn cur content)).
  { destruct (cur <? k) eqn:E.
    - unfold concat_vals, substring. simpl. rewrite app_nil_r. reflexivity.
    - apply Nat.ltb_ge in E. replace (k - cur) with 0 by lia. reflexivity. }
  rewrite Hpre.
  assert (Hsplit : skipn cur content = firstn (k - cur) (skipn cur content) ++ skipn k content).
  { rewrite <- (firstn_skipn (k - cur) (skipn cur content)) at 1.
    rewrite skipn_skipn. replace (k - cur + cur) with k by lia. reflexivity. }
  rewrite Hsplit at 2. f_equal.
  destruct (parseShortcode (skipn k content)) as [r|] eqn:Hp.
  - apply parseShortcode_original in Hp as [pos [Ho Hpos]].
    rewrite length_skipn in Hpos.
    change (concat_vals (Shortcode (startPos + k) (original r) (sr_name r) (sr_params r)
                           (sr_isClosing r) (sr_isInline r)
                         :: pcws_loop fuel content startPos (k + length (original r))))
      with (original r ++ concat_vals (pcws_loop fuel content startPos (k + length (original r)))).
    assert (Hol : length (original r) = pos).
    { rewrite Ho, length_firstn, length_skipn. lia. }
    rewrite Hol, IH by lia. rewrite Ho, (Nat.add_comm k pos), <- skipn_skipn.
    apply firstn_skipn.
  - change (concat_vals (Item T_content (startPos + k) (lit "{{<")
                         :: pcws_loop fuel content startPos (k + 3)))
      with (lit "{{<" ++ concat_vals (pcws_loop fuel content startPos (k + 3))).
    rewrite IH by lia. apply startsWith_split in Hsw. rewrite Hsw.
    rewrite skipn_skipn. f_equal. f_equal. simpl. lia.
Qed.

Lemma parseContentWithShortcodes_lossless : forall content startPos,
  concat_vals (parseContentWithShortcodes content startPos) = content.
Proof.
  intros content startPos. unfold parseContentWithShortcodes.
  rewrite pcws_loop_lossless by lia. reflexivity.
Qed.

Lemma processSummaryDividerAndContent_lossless : forall content startPos,
  concat_vals (processSummaryDividerAndContent content startPos) = content.
Proof.
  intros content startPos. unfold processSummaryDividerAndContent.
  destruct (summaryDividerMatch content) as [[i len]|].
  - rewrite !concat_vals_app, !parseContentWithShortcodes_lossless.
    unfold concat_vals at 1, substring. simpl. rewrite app_nil_r.
    replace (i + len - i) with len by lia. rewrite Nat.sub_0_r.
    rewrite (Nat.add_comm i len), <- skipn_skipn, firstn_skipn, firstn_skipn.
    reflexivity.
  - apply parseContentWithShortcodes_lossless.
Qed.

Lemma processSummaryDividerAndContent_nil : forall startPos,
  processSummaryDividerAndContent [] startPos = [].
Proof. intros startPos. reflexivity. Qed.

Lemma split_nl_nonempty : forall s, split_nl s <> [].
Proof.
  destruct s as [|c r]; simpl; [discriminate|].
  destruct (char_eqb c 10%N); [discriminate|]. destruct (split_nl r); discriminate.
Qed.

Lemma join_nl_cons_cons : forall c l ls, join_nl ((c :: l) :: ls) = c :: join_nl (l :: ls).
Proof. intros c l ls. destruct ls; reflexivity. Qed.

Lemma join_nl_split_nl : forall s, join_nl (split_nl s) = s.
Proof.
  induction s as [|c r IH]; [reflexivity|]. simpl.
  destruct (char_eqb c 10%N) eqn:E.
  - unfold char_eqb in E. apply N.eqb_eq in E. subst c.
    pose proof (split_nl_nonempty r) as Hne.
    destruct (split_nl r) as [|l ls]; [contradiction|].
    change (join_nl ([] :: l :: ls)) with ([] ++ 10%N :: join_nl (l :: ls)).
    rewrite IH. reflexivity.
  - pose proof (split_nl_nonempty r) as Hne.
    destruct (split_nl r) as [|l ls]; [contradiction|].
    rewrite join_nl_cons_cons. f_equal. exact IH.
Qed.

Lemma join_nl_app : forall a b, a <> [] -> b <> [] ->
  join_nl (a ++ b) = join_nl a ++ 10%N :: join_nl b.
Proof.
  induction a as [|x a IH]; intros b Ha Hb; [contradiction|].
  destruct a as [|y a'].
  - destruct b as [|z b']; [contradiction|]. reflexivity.
  - change ((x :: y :: a') ++ b) with (x :: ((y :: a') ++ b)).
    change (join_nl (x :: (y :: a') ++ b)) with (x ++ 10%N :: join_nl ((y :: a') ++ b)).
    rewrite IH by (discriminate || exact Hb).
    change (join_nl (x :: y :: a')) with (x ++ 10%N :: join_nl (y :: a')).
    rewrite <- app_assoc. reflexivity.
Qed.

(** A recognised frontmatter block is the text up to the closing fence;
    what follows it, after one line feed, is the remaining content. *)
Lemma extractFrontmatter_split : forall text,
  fm_has (extractFrontmatter text) = true ->
  text = fm_content (extractFrontmatter text) ++ 10%N :: fm_remaining (extractFrontmatter text)
  \/ (text = fm_content (extractFrontmatter text) /\ fm_remaining (extractFrontmatter text) = []).
Proof.
  intros text H. unfold extractFrontmatter in *.
  pose proof (join_nl_split_nl text) as Hj.
  destruct (split_nl text) as [|firstLine rest] eqn:Hl; [discriminate|].
  destruct (frontmatterOpen (trim firstLine)) as [format|]; [|discriminate].
  destruct (frontmatterClose format) as [closeP|]; [|discriminate].
  destruct (find_close closeP rest 1) as [e|]; [|discriminate]. simpl.
  rewrite <- Hj. remember (firstLine :: rest) as lines eqn:Hlines.
  pose proof (firstn_skipn (e + 1) lines) as Hfs.
  destruct (skipn (e + 1) lines) as [|l ls] eqn:Hs.
  - right. rewrite app_nil_r in Hfs. rewrite Hfs. split; reflexivity.
  - left. rewrite <- Hfs at 1. apply join_nl_app; [|discriminate].
    subst lines. replace (e + 1) with (S e) by lia. discriminate.
Qed.

(** C3.  Lexing is lossless up to the one line feed that separates a
    frontmatter block from the body.  Without frontmatter, concatenating
    the [val]s of the items of [parse text] gives back [text] exactly.
    With frontmatter, the first item is the block [fm] (from the opening
    fence to the closing fence), and [text] is [fm], one line feed, then
    the concatenation of the remaining items.  The exception is when the
    closing fence is the last line: then [text] is [fm] and no other item
    follows.  The line feed is not in any item's [val]; the positions of
    the body items start after it.  For example, ["---\n---\nx"] gives
    ["---\n---x"]. *)
Theorem C3_lexer_lossless : forall text,
  (if hasFrontmatter (parse text)
   then exists fm rest,
          items (parse text) = Item T_frontmatter 0 fm :: rest
          /\ (text = fm ++ 10%N :: concat_vals rest \/ (text = fm /\ rest = []))
   else concat_vals (items (parse text)) = text)
  /\ concat_vals (items (parse (lit "---" ++ 10%N :: lit "---" ++ 10%N :: lit "x")))
     = lit "---" ++ 10%N :: lit "---" ++ lit "x".
Proof.
  intros text. split; [|vm_compute; reflexivity].
  unfold parse. destruct (fm_has (extractFrontmatter text)) eqn:Hf; simpl.
  - eexists _, _. split; [reflexivity|].
    destruct (extractFrontmatter_split text Hf) as [H|[H1 H2]].
    + left. rewrite processSummaryDividerAndContent_lossless. exact H.
    + right. split; [exact H1|]. rewrite H2. apply processSummaryDividerAndContent_nil.
  - apply processSummaryDividerAndContent_lossless.
Qed.

(** ** C8: [finalRender] terminates *)

(** Keys of the placeholder map not yet on the path [visited]. *)
Definition unvisited (pmap : list (str * list str)) (visited : list str) : nat :=
  length (filter (fun k => negb (str_has visited k)) (map fst pmap)).

Lemma str_has_snoc : forall v ph k, str_has (v ++ [ph]) k = str_has v k || str_eqb k ph.
Proof.
  intros v ph k. unfold str_has. rewrite existsb_app. simpl. rewrite orb_false_r. reflexivity.
Qed.

Lemma str_eqb_refl : forall a, str_eqb a a = true.
Proof. intros a. apply str_eqb_eq. reflexivity. Qed.

Lemma filter_snoc_le : forall v ph l,
  length (filter (fun k => negb (str_has (v ++ [ph]) k)) l)
  <= length (filter (fun k => negb (str_has v k)) l).
Proof.
  intros v ph. induction l as [|k l IH]; simpl; [lia|].
  rewrite str_has_snoc. destruct (str_has v k), (str_eqb k ph); simpl; lia.
Qed.

Lemma filter_snoc_lt : forall v ph l,
  existsb (str_eqb ph) l = true -> str_has v ph = false ->
  length (filter (fun k => negb (str_has (v ++ [ph]) k)) l)
  < length (filter (fun k => negb (str_has v k)) l).
Proof.
  intros v ph. induction l as [|k l IH]; intros Hin Hv; simpl in Hin; [discriminate|].
  simpl. rewrite str_has_snoc.
  destruct (str_eqb ph k) eqn:E.
  - apply str_eqb_eq in E. subst k. rewrite Hv, str_eqb_refl. simpl.
    pose proof (filter_snoc_le v ph l). lia.
  - simpl in Hin. specialize (IH Hin Hv).
    destruct (str_has v k), (str_eqb k ph); simpl; lia.
Qed.

Lemma assoc_get_key : forall {V} (m : list (str * V)) k v,
  assoc_get str_eqb m k = Some v -> existsb (str_eqb k) (map fst m) = true.
Proof.
  intros V m k v. induction m as [|[k' v'] m IH]; simpl; [discriminate|].
  destruct (str_eqb k k'); [reflexivity|]. exact IH.
Qed.

Lemma unvisited_le : forall pmap v, unvisited pmap v <= length pmap.
Proof.
  intros pmap v. unfold unvisited. rewrite <- (length_map fst pmap).
  induction (map fst pmap) as [|k l IH]; simpl; [lia|].
  destruct (negb (str_has v k)); simpl; lia.
Qed.

(** The memoised depth computation never runs out of fuel when the fuel
    exceeds the number of map keys still off the path. *)
Lemma calculateDepth_some : forall f pmap ph visited memo,
  unvisited pmap visited < f -> calculateDepth f pmap ph visited memo <> None.
Proof.
  induction f as [|f IHf]; intros pmap ph visited memo Hf; [lia|].
  simpl. destruct (str_has visited ph) eqn:Hv; [discriminate|].
  destruct (assoc_get str_eqb memo ph); [discriminate|].
  destruct (assoc_get str_eqb pmap ph) as [[|n ns]|] eqn:Hp; try discriminate.
  assert (Hlt : unvisited pmap (visited ++ [ph]) < f).
  { unfold unvisited in *. apply assoc_get_key in Hp.
    pose proof (filter_snoc_lt visited ph (map fst pmap) Hp Hv). lia. }
  destruct (calculateDepth f pmap n (visited ++ [ph]) memo) as [[d0 m0]|] eqn:E0.
  2:{ exfalso. exact (IHf pmap n (visited ++ [ph]) memo Hlt E0). }
  match goal with
  | |- match ?L ns (Nat.max 0 d0) m0 with _ => _ end <> None =>
      assert (HL : forall xs mx mm, L xs mx mm <> None);
      [ induction xs as [|x xs IHxs]; intros mx mm; [discriminate|];
        simpl;
        destruct (calculateDepth f pmap x (visited ++ [ph]) mm) as [[d m']|] eqn:E;
        [ apply IHxs | exfalso; exact (IHf pmap x (visited ++ [ph]) mm Hlt E) ]
      | specialize (HL ns (Nat.max 0 d0) m0);
        destruct (L ns (Nat.max 0 d0) m0) as [[? ?]|]; [discriminate | contradiction] ]
  end.
Qed.

Lemma depth_all_some : forall fuel pmap keys memo,
  length pmap < fuel -> depth_all fuel pmap keys memo <> None.
Proof.
  intros fuel pmap keys. induction keys as [|k ks IH]; intros memo Hf; simpl; [discriminate|].
  destruct (assoc_get str_eqb memo k); [apply IH, Hf|].
  destruct (calculateDepth fuel pmap k [] memo) as [[d m']|] eqn:E; [apply IH, Hf|].
  exfalso. pose proof (unvisited_le pmap []).
  exact (calculateDepth_some fuel pmap k [] memo ltac:(lia) E).
Qed.

Lemma processNestedInCache_some : forall cache, processNestedInCache cache <> None.
Proof.
  intros cache. unfold processNestedInCache.
  destruct (depth_all _ _ _ _) eqn:E; [discriminate|].
  exfalso. exact (depth_all_some (S (length (buildPlaceholderMap cache)))
                   (buildPlaceholderMap cache) (map fst cache) [] (Nat.lt_succ_diag_r _) E).
Qed.

(** C8.  [finalRender] returns a result for every text and every cache:
    the depth computation is always given enough fuel, and so it gives
    an answer even when a cache entry holds its own placeholder.  (The
    substitutions are structural recursions and always end.)  Example: the
    self-referential entry [_mdf_sc_0 -> a_mdf_sc_0b] turns
    [<_mdf_sc_0>] into [<aa_mdf_sc_0bb>]. *)
Theorem C8_finalRender_terminates :
  (forall pr text, exists out pr', finalRender pr text = Some (out, pr'))
  /\ forall mk,
     option_map fst (finalRender (with_cache (newPageRenderer emptyRegistry mk)
                                   [(lit "_mdf_sc_0", lit "a_mdf_sc_0b")])
                                 (lit "<_mdf_sc_0>"))
     = Some (lit "<aa_mdf_sc_0bb>").
Proof.
  split.
  - intros pr text. unfold finalRender.
    destruct (stepRenderCache pr) as [|e es] eqn:Hc; [eauto|].
    destruct (processNestedInCache (e :: es)) as [c'|] eqn:Hp; [eauto|].
    exfalso. exact (processNestedInCache_some _ Hp).
  - intros mk. vm_compute. reflexivity.
Qed.

(** * Further properties of the lexer and the renderers *)

(** ** Item positions *)

(** [its] lie end to end from offset [p]: each item starts where the
    previous one ends. *)
Fixpoint tiled (p : nat) (its : list PageItem) : Prop :=
  match its with
  | [] => True
  | it :: r => item_pos it = p /\ tiled (p + length (item_val it)) r
  end.

Lemma tiled_app : forall a b p,
  tiled p a -> tiled (p + length (concat_vals a)) b -> tiled p (a ++ b).
Proof.
  induction a as [|it a IH]; intros b p Ha Hb; simpl in *.
  - rewrite Nat.add_0_r in Hb. exact Hb.
  - destruct Ha as [H1 H2]. split; [exact H1|]. apply IH; [exact H2|].
    unfold concat_vals in Hb. simpl in Hb. rewrite length_app, Nat.add_assoc in Hb. exact Hb.
Qed.

Lemma tiled_single_app : forall p x l,
  item_pos x = p /\ tiled (p + length (item_val x)) l -> tiled p ([x] ++ l).
Proof. intros p x l H. exact H. Qed.

Lemma tiled_eq : forall p q its, p = q -> tiled p its -> tiled q its.
Proof. intros p q its ->. auto. Qed.

Lemma pcws_loop_tiled : forall fuel content startPos currentPos,
  length content - currentPos < fuel ->
  tiled (startPos + currentPos) (pcws_loop fuel content startPos currentPos).
Proof.
  induction fuel as [|fuel IH]; intros content startPos cur Hf; [lia|].
  simpl pcws_loop. destruct (cur <? length content) eqn:Hlt; [|exact I].
  apply Nat.ltb_lt in Hlt.
  destruct (indexOf content (lit "{{<") cur) as [k|] eqn:Hk.
  2:{ simpl. auto. }
  apply indexOf_spec in Hk as [Hck Hsw].
  pose proof (startsWith_length _ _ Hsw) as Hlen. rewrite length_skipn in Hlen.
  simpl in Hlen.
  apply tiled_app.
  { destruct (cur <? k); simpl; auto. }
  apply (tiled_eq (startPos + k)).
  { destruct (cur <? k) eqn:E; unfold concat_vals; simpl.
    - apply Nat.ltb_lt in E. rewrite app_nil_r. unfold substring.
      rewrite length_firstn, length_skipn. lia.
    - apply Nat.ltb_ge in E. lia. }
  destruct (parseShortcode (skipn k content)) as [r|] eqn:Hp.
  - pose proof Hp as Hp'. apply parseShortcode_original in Hp' as [pos [Ho Hpos]].
    rewrite length_skipn in Hpos.
    assert (Hol : length (original r) = pos).
    { rewrite Ho, length_firstn, length_skipn. lia. }
    simpl. split; [reflexivity|]. rewrite Hol.
    apply (tiled_eq (startPos + (k + pos))); [lia|].
    rewrite <- Hol. apply IH. lia.
  - simpl. split; [reflexivity|].
    apply (tiled_eq (startPos + (k + 3))); [lia|]. apply IH. lia.
Qed.

Lemma divider_search_bound : forall s i ls j len,
  divider_search s i ls = Some (j, len) -> j <= i + length s.
Proof.
  induction s as [|c s IH]; intros i ls j len H.
  - simpl in H. destruct ls; [|discriminate]. discriminate.
  - simpl in H. destruct (if ls then divider_match_at (c :: s) else None).
    + injection H as <- _. lia.
    + apply IH in H. simpl. lia.
Qed.

Lemma processSummaryDividerAndContent_tiled : forall content startPos,
  tiled startPos (processSummaryDividerAndContent content startPos).
Proof.
  intros content startPos. unfold processSummaryDividerAndContent.
  destruct (summaryDividerMatch content) as [[i len]|] eqn:Hm.
  - apply divider_search_bound in Hm. simpl in Hm.
    apply tiled_app.
    { unfold parseContentWithShortcodes.
      apply (tiled_eq (startPos + 0)); [lia|]. apply pcws_loop_tiled. lia. }
    rewrite parseContentWithShortcodes_lossless.
    unfold substring at 1.
    rewrite Nat.sub_0_r, skipn_O, length_firstn, Nat.min_l by lia.
    unfold parseContentWithShortcodes.
    apply tiled_single_app. split; [reflexivity|]. cbn [item_val].
    destruct (Nat.le_gt_cases len (length content - i)) as [Hle|Hgt].
    + unfold substring. rewrite length_firstn, length_skipn.
      replace (i + len - i) with len by lia. rewrite Nat.min_l by lia.
      apply (tiled_eq (startPos + i + len + 0)); [lia|]. apply pcws_loop_tiled. lia.
    + rewrite skipn_all2 by lia. exact I.
  - unfold parseContentWithShortcodes. apply (tiled_eq (startPos + 0)); [lia|].
    apply pcws_loop_tiled. lia.
Qed.

(** Items lying end to end from [p] over the text [s]: each one is the
    text at its own offset. *)
Lemma tiled_located : forall its p s,
  tiled p its -> concat_vals its = s ->
  forall it, In it its ->
    p <= item_pos it
    /\ firstn (length (item_val it)) (skipn (item_pos it - p) s) = item_val it.
Proof.
  induction its as [|it0 its IH]; intros p s Ht Hc it Hin; [destruct Hin|].
  destruct Ht as [Hp Ht]. unfold concat_vals in Hc. simpl in Hc. subst s.
  destruct Hin as [<-|Hin].
  - rewrite Hp, Nat.sub_diag. split; [lia|].
    rewrite skipn_O, firstn_app, Nat.sub_diag, firstn_all. simpl. apply app_nil_r.
  - destruct (IH _ _ Ht eq_refl it Hin) as [H1 H2]. split; [lia|].
    replace (item_pos it - p) with (length (item_val it0) + (item_pos it - (p + length (item_val it0))))
      by lia.
    rewrite Nat.add_comm, <- skipn_skipn, skipn_app, skipn_all, Nat.sub_diag, skipn_O.
    exact H2.
Qed.

Lemma skipn_past_sep : forall (a b : str) x, skipn (length a + 1) (a ++ x :: b) = b.
Proof.
  intros a b x. rewrite Nat.add_comm, <- skipn_skipn, skipn_app, skipn_all, Nat.sub_diag.
  reflexivity.
Qed.

(** Positions of the lexer's items index the input: the [val] of every
    item of [parse(text)] is the text found at offset [pos] in [text].  (The
    line feed after a frontmatter block is skipped: the body's positions
    start past it.) *)
Theorem X1_item_at_its_pos : forall text it,
  In it (items (parse text)) ->
  substring text (item_pos it) (item_pos it + length (item_val it)) = item_val it.
Proof.
  intros text it Hin. unfold substring. rewrite Nat.add_comm, Nat.add_sub.
  unfold parse in Hin. destruct (fm_has (extractFrontmatter text)) eqn:Hf; simpl in Hin.
  - destruct (extractFrontmatter_split text Hf) as [Htext|[Htext Hrem]].
    + destruct Hin as [<-|Hin].
      * simpl. rewrite Htext at 2. rewrite firstn_app, Nat.sub_diag, firstn_all. apply app_nil_r.
      * destruct (tiled_located _ _ _ (processSummaryDividerAndContent_tiled _ _)
                   (processSummaryDividerAndContent_lossless _ _) it Hin) as [H1 H2].
        set (fm := fm_content (extractFrontmatter text)) in *.
        set (rem := fm_remaining (extractFrontmatter text)) in *.
        assert (E : skipn (item_pos it) text = skipn (item_pos it - (length fm + 1)) rem).
        { replace (item_pos it) with ((item_pos it - (length fm + 1)) + (length fm + 1))
            at 1 by lia.
          rewrite <- skipn_skipn, Htext, skipn_past_sep. reflexivity. }
        rewrite E. exact H2.
    + rewrite Hrem, processSummaryDividerAndContent_nil in Hin.
      destruct Hin as [<-|[]]. simpl. rewrite Htext at 2. apply firstn_all.
  - destruct (tiled_located _ _ _ (processSummaryDividerAndContent_tiled _ _)
               (processSummaryDividerAndContent_lossless _ _) it Hin) as [_ H2].
    rewrite Nat.sub_0_r in H2. exact H2.
Qed.

Lemma X1_witness :
  In (Shortcode 2 (lit "{{< x a >}}") (lit "x") [lit "a"] false false)
     (items (parse (lit "ab{{< x a >}}c")))
  /\ substring (lit "ab{{< x a >}}c") 2 (2 + length (lit "{{< x a >}}")) = lit "{{< x a >}}".
Proof.
  assert (H : In (Shortcode 2 (lit "{{< x a >}}") (lit "x") [lit "a"] false false)
                 (items (parse (lit "ab{{< x a >}}c")))) by (vm_compute; auto).
  split; [exact H|].
  exact (X1_item_at_its_pos (lit "ab{{< x a >}}c") _ H).
Defined.

(** ** Kinds of items *)

Definition body_item (it : PageItem) : bool :=
  match item_type it with T_content | T_shortcode => true | _ => false end.

Lemma pcws_loop_body : forall fuel content startPos currentPos,
  Forall (fun it => body_item it = true) (pcws_loop fuel content startPos currentPos).
Proof.
  induction fuel as [|fuel IH]; intros content startPos cur; simpl; [constructor|].
  destruct (cur <? length content); [|constructor].
  destruct (indexOf content (lit "{{<") cur) as [k|]; [|repeat constructor].
  apply Forall_app. split; [destruct (cur <? k); repeat constructor|].
  destruct (parseShortcode (skipn k content)); constructor; auto.
Qed.

Lemma body_no_divider : forall its,
  Forall (fun it => body_item it = true) its -> filter is_divider_item its = [].
Proof.
  induction 1 as [|it its H _ IH]; simpl; [reflexivity|].
  unfold body_item, is_divider_item in *. destruct (item_type it); try discriminate; exact IH.
Qed.

Lemma processSummaryDividerAndContent_kinds : forall content startPos,
  length (filter is_divider_item (processSummaryDividerAndContent content startPos)) <= 1
  /\ Forall (fun it => item_type it <> T_frontmatter) (processSummaryDividerAndContent content startPos).
Proof.
  intros content startPos. unfold processSummaryDividerAndContent, parseContentWithShortcodes.
  assert (Hb : forall c sp f, Forall (fun it => item_type it <> T_frontmatter) (pcws_loop f c sp 0)).
  { intros c sp f. eapply Forall_impl; [|apply pcws_loop_body].
    intros it H. unfold body_item in H. destruct (item_type it); discriminate. }
  assert (Hnd : forall f c sp cur, filter is_divider_item (pcws_loop f c sp cur) = []).
  { intros. apply body_no_divider, pcws_loop_body. }
  destruct (summaryDividerMatch content) as [[i len]|].
  - rewrite !filter_app, !Hnd. split; [simpl; lia|].
    apply Forall_app. split; [apply Hb|]. constructor; [discriminate|apply Hb].
  - rewrite Hnd. split; [simpl; lia|apply Hb].
Qed.

(** The lexer emits at most one summary divider (a second divider line
    stays content), and a frontmatter item only as the first item. *)
Theorem X2_item_kinds : forall text,
  length (filter is_divider_item (items (parse text))) <= 1
  /\ Forall (fun it => item_type it <> T_frontmatter) (tl (items (parse text))).
Proof.
  intros text. unfold parse. destruct (fm_has (extractFrontmatter text)); simpl;
    [apply processSummaryDividerAndContent_kinds|].
  destruct (processSummaryDividerAndContent_kinds text 0) as [H1 H2].
  split; [exact H1|]. destruct H2; simpl; [constructor | assumption].
Qed.

(** ** Where the summary divider is recognised *)

Lemma divider_search_cons : forall c s i ls,
  divider_search (c :: s) i ls
  = match (if ls then divider_match_at (c :: s) else None) with
    | Some len => Some (i, len)
    | None => divider_search s (S i) (is_lt c)
    end.
Proof. reflexivity. Qed.

Lemma divider_search_spec : forall s i ls j len,
  divider_search s i ls = Some (j, len) ->
  i <= j /\ divider_match_at (skipn (j - i) s) = Some len
  /\ ((j = i /\ ls = true) \/ (i < j /\ is_lt (nth (j - i - 1) s 0%N) = true)).
Proof.
  induction s as [|c s IH]; intros i ls j len H.
  - simpl in H. destruct ls; discriminate.
  - rewrite divider_search_cons in H.
    destruct (if ls then divider_match_at (c :: s) else None) eqn:Hm.
    + injection H as <- <-. destruct ls; [|discriminate].
      rewrite Nat.sub_diag. auto.
    + apply IH in H as [H1 [H2 H3]].
      replace (j - i) with (S (j - S i)) by lia. simpl. split; [lia|]. split; [exact H2|].
      right. split; [lia|]. destruct H3 as [[-> H4]|[H4 H5]].
      * rewrite Nat.sub_diag. exact H4.
      * replace (j - S i - 0) with (S (j - S i - 1)) by lia. exact H5.
Qed.

Lemma divider_match_at_spec : forall s len,
  divider_match_at s = Some len -> startsWith s (lit "<!--") = true /\ 4 <= len.
Proof.
  intros s len H. unfold divider_match_at in H.
  destruct (startsWith s (lit "<!--")); [|discriminate].
  destruct (startsWith _ (lit "more")); [|discriminate].
  destruct (startsWith _ (lit "-->")); [|discriminate].
  destruct (best_k _ _); [|discriminate]. injection H as <-. split; [reflexivity | lia].
Qed.

Lemma startsWith_firstn : forall p s n,
  startsWith s p = true -> length p <= n -> startsWith (firstn n s) p = true.
Proof.
  induction p as [|x p IH]; intros s n H Hn; [destruct (firstn n s); reflexivity|].
  destruct s as [|y s]; [discriminate|]. destruct n as [|n]; [simpl in Hn; lia|].
  simpl in *. apply andb_prop in H as [H1 H2]. rewrite H1. apply IH; [exact H2 | lia].
Qed.

(** The divider items of the body that starts at [startPos]. *)
Lemma processSummaryDividerAndContent_divider : forall content startPos it,
  In it (processSummaryDividerAndContent content startPos) -> is_divider_item it = true ->
  startsWith (item_val it) (lit "<!--") = true
  /\ startPos <= item_pos it
  /\ (item_pos it = startPos
      \/ is_lt (nth (item_pos it - startPos - 1) content 0%N) = true).
Proof.
  intros content startPos it Hin Hd. unfold processSummaryDividerAndContent in Hin.
  assert (Hb : forall c sp, ~ (In it (parseContentWithShortcodes c sp))).
  { intros c sp H. pose proof (pcws_loop_body (S (length c)) c sp 0) as F.
    rewrite Forall_forall in F. apply F in H. unfold body_item, is_divider_item in *.
    destruct (item_type it); discriminate. }
  destruct (summaryDividerMatch content) as [[i len]|] eqn:Hm.
  2:{ exfalso. exact (Hb _ _ Hin). }
  apply in_app_or in Hin as [Hin|Hin]; [exfalso; exact (Hb _ _ Hin)|].
  destruct Hin as [<-|Hin]; [|exfalso; exact (Hb _ _ Hin)].
  apply divider_search_spec in Hm as [_ [H2 H3]]. rewrite Nat.sub_0_r in H2.
  apply divider_match_at_spec in H2 as [H2 H4]. simpl.
  split; [|split; [lia|]].
  - unfold substring. replace (i + len - i) with len by lia. apply startsWith_firstn; auto.
  - destruct H3 as [[-> _]|[H5 H6]]; [left; lia|right].
    replace (startPos + i - startPos - 1) with (i - 0 - 1) by lia. exact H6.
Qed.

(** A summary divider is recognised only at the start of a line: the
    divider item begins with [<!--], at offset 0 of the text or right
    after a line terminator. *)
Theorem X3_divider_at_line_start : forall text it,
  In it (items (parse text)) -> is_divider_item it = true ->
  startsWith (item_val it) (lit "<!--") = true
  /\ (item_pos it = 0 \/ is_lt (nth (item_pos it - 1) text 0%N) = true).
Proof.
  intros text it Hin Hd. unfold parse in Hin.
  destruct (fm_has (extractFrontmatter text)) eqn:Hf; simpl in Hin.
  - destruct Hin as [<-|Hin]; [discriminate|].
    destruct (processSummaryDividerAndContent_divider _ _ _ Hin Hd) as [H1 [H2 H3]].
    split; [exact H1|]. right.
    destruct (extractFrontmatter_split text Hf) as [Htext|[Htext Hrem]].
    + set (fm := fm_content (extractFrontmatter text)) in *.
      set (rem := fm_remaining (extractFrontmatter text)) in *.
      rewrite Htext.
      destruct (Nat.eq_dec (item_pos it) (length fm + 1)) as [H4|H4];
        [|destruct H3 as [H3|H3]; [contradiction|]].
      * rewrite H4. replace (length fm + 1 - 1) with (length fm) by lia.
        rewrite app_nth2, Nat.sub_diag by lia. reflexivity.
      * rewrite app_nth2 by lia.
        replace (item_pos it - 1 - length fm) with (S (item_pos it - (length fm + 1) - 1)) by lia.
        exact H3.
    + rewrite Hrem, processSummaryDividerAndContent_nil in Hin. destruct Hin.
  - destruct (processSummaryDividerAndContent_divider _ _ _ Hin Hd) as [H1 [H2 H3]].
    split; [exact H1|]. destruct H3 as [H3|H3]; [left; exact H3|right].
    rewrite Nat.sub_0_r in H3. exact H3.
Qed.

Lemma X3_witness :
  let text := lit "ab" ++ 10%N :: lit "<!-- more -->" ++ 10%N :: lit "c" in
  let it := Item T_summary_divider 3 (lit "<!-- more -->") in
  (In it (items (parse text)) /\ is_divider_item it = true)
  /\ startsWith (item_val it) (lit "<!--") = true
  /\ (item_pos it = 0 \/ is_lt (nth (item_pos it - 1) text 0%N) = true).
Proof.
  intros text it.
  assert (H1 : In it (items (parse text))) by (vm_compute; auto 10).
  assert (H2 : is_divider_item it = true) by reflexivity.
  split; [split; assumption|].
  exact (X3_divider_at_line_start text it H1 H2).
Defined.

(** ** Shape of a shortcode item *)

Definition no_lead (s : str) : Prop :=
  match s with [] => True | c :: _ => is_ws c = false end.

Lemma trimStart_no_lead : forall s, no_lead (trimStart s).
Proof.
  induction s as [|c s IH]; simpl; [exact I|].
  destruct (is_ws c) eqn:E; [exact IH | exact E].
Qed.

Lemma trimStart_id : forall s, no_lead s -> trimStart s = s.
Proof. intros [|c s] H; simpl in *; [reflexivity | rewrite H; reflexivity]. Qed.

Lemma trimStart_suffix : forall s, exists w, s = w ++ trimStart s.
Proof.
  induction s as [|c s [w IH]]; simpl; [exists []; reflexivity|].
  destruct (is_ws c); [exists (c :: w); simpl; f_equal; exact IH | exists []; reflexivity].
Qed.

Lemma no_lead_app : forall a b, a <> [] -> no_lead (a ++ b) -> no_lead a.
Proof. intros [|c a] b H Hn; [contradiction | exact Hn]. Qed.

Lemma trim_idem : forall s, trim (trim s) = trim s.
Proof.
  intros s. unfold trim, trimEnd.
  set (x := trimStart s). assert (Hx : no_lead x) by apply trimStart_no_lead.
  set (y := trimStart (rev x)). assert (Hy : no_lead y) by apply trimStart_no_lead.
  destruct (trimStart_suffix (rev x)) as [w Hw]. fold y in Hw.
  destruct y as [|a y0] eqn:Ey; [reflexivity|].
  rewrite <- Ey in *.
  assert (Hl : no_lead (rev y)).
  { apply (no_lead_app _ (rev w)).
    - rewrite Ey. simpl. intro E. apply (f_equal (@length char)) in E.
      rewrite length_app in E. simpl in E. lia.
    - rewrite <- rev_app_distr, <- Hw, rev_involutive. exact Hx. }
  rewrite (trimStart_id _ Hl), rev_involutive, (trimStart_id _ Hy). reflexivity.
Qed.

Lemma trimStart_snoc : forall l c, is_ws c = false -> exists t, trimStart (l ++ [c]) = t ++ [c].
Proof.
  induction l as [|a l IH]; intros c Hc; simpl.
  - rewrite Hc. exists []. reflexivity.
  - destruct (is_ws a); [apply IH, Hc | exists (a :: l); reflexivity].
Qed.

Lemma trim_snoc_nonempty : forall l c, is_ws c = false -> trim (l ++ [c]) <> [].
Proof.
  intros l c Hc. unfold trim, trimEnd. destruct (trimStart_snoc l c Hc) as [t Ht].
  rewrite Ht, rev_app_distr. simpl. rewrite Hc. simpl.
  destruct (rev (rev t) ++ [c]) eqn:E; [|discriminate].
  apply (f_equal (@length char)) in E. rewrite length_app in E. simpl in E. lia.
Qed.

Definition param_ok (p : str) : Prop := p <> [] /\ trim p = p.

Definition scan_inv (st : ScanState) : Prop :=
  Forall param_ok (params_acc st) /\ (inQuote st = true -> is_quote (quoteChar st) = true).

Lemma param_ok_trim : forall s, nonempty (trim s) = true -> param_ok (trim s).
Proof.
  intros s H. split; [destruct (trim s); discriminate | apply trim_idem].
Qed.

Lemma is_quote_not_ws : forall c, is_quote c = true -> is_ws c = false.
Proof.
  intros c H. unfold is_quote, char_eqb in H.
  apply orb_prop in H as [H|H]; apply N.eqb_eq in H; subst c; reflexivity.
Qed.

Lemma scan_keeps_inv : forall rest prev pos st st' found q,
  scan_inv st -> scan rest prev pos st = (st', found, q) -> scan_inv st'.
Proof.
  induction rest as [|c r IH]; intros prev pos st st' found q Hi H.
  - simpl in H. injection H as <- _ _. exact Hi.
  - destruct st as [ps il iq qc cur]. destruct Hi as [Hps Hq]. simpl in Hps, Hq.
    simpl in H.
    repeat (match type of H with context [if ?b then _ else _] =>
              let E := fresh "E" in destruct b eqn:E end).
    all: try (injection H as <- _ _; split; assumption).
    all: eapply IH; [|exact H]; split; simpl.
    all: try exact Hps; try exact Hq; try (intros; discriminate).
    all: try (intros _; assumption).
    all: apply Forall_app; split; [exact Hps | constructor; [|constructor]].
    + apply param_ok_trim. assumption.
    + match goal with E : char_eqb c qc && _ = true |- _ =>
        apply andb_prop in E as [E _]; apply N.eqb_eq in E; subst c end.
      match goal with E : negb iq = false |- _ => apply negb_false_iff in E end.
      split; [apply trim_snoc_nonempty, is_quote_not_ws; auto | apply trim_idem].
Qed.

Lemma name_prefix_chars : forall s, forallb is_name_char (name_prefix s) = true.
Proof.
  induction s as [|c s IH]; simpl; [reflexivity|].
  destruct (is_name_char c) eqn:E; simpl; [rewrite E; exact IH | reflexivity].
Qed.

Lemma exec_from_name : forall s i sl nm li,
  exec_from s i = Some (sl, nm, li) -> nm <> [] /\ forallb is_name_char nm = true.
Proof.
  induction s as [|c s IH]; intros i sl nm li H; simpl in H.
  - unfold start_match_at in H. simpl in H. discriminate.
  - destruct (start_match_at (c :: s)) as [[[sl' nm'] len]|] eqn:E.
    + injection H as _ <- _. unfold start_match_at in E.
      destruct (startsWith (c :: s) (lit "{{<")); [|discriminate].
      destruct (match skipn (ws_prefix_len (skipn 3 (c :: s))) (skipn 3 (c :: s)) with
                | [] => _ | _ => _ end) as [[? s3] ?].
      pose proof (name_prefix_chars (skipn (ws_prefix_len s3) s3)) as Hc.
      destruct (name_prefix _); [discriminate|]. injection E as _ <- _.
      split; [discriminate | exact Hc].
    + eapply IH. exact H.
Qed.

Lemma finalParams_ok : forall st, scan_inv st -> Forall param_ok (finalParams st).
Proof.
  intros st [H _]. unfold finalParams.
  destruct (nonempty (trim (currentParam st)) && negb (inline_flag st)) eqn:E; [|exact H].
  apply andb_prop in E as [E _].
  apply Forall_app. split; [exact H | constructor; [apply param_ok_trim, E | constructor]].
Qed.

(** What [parseShortcode] returns on a match. *)
Lemma parseShortcode_shape : forall input r,
  parseShortcode input = Some r ->
  (exists pos, original r = firstn pos input /\ 3 < pos)
  /\ sr_name r <> [] /\ forallb is_name_char (sr_name r) = true
  /\ Forall param_ok (sr_params r).
Proof.
  intros input r H. unfold parseShortcode in H.
  destruct (exec_from input 0) as [[[sl nm] li]|] eqn:E; [|discriminate].
  pose proof (exec_from_bound _ _ _ _ _ E) as Hb. apply exec_from_name in E as [E1 E2].
  destruct (scan (skipn li input) (nth (li - 1) input 0%N) li (Build_ScanState [] false false 0%N []))
    as [[st found] pos] eqn:S.
  destruct found; [|discriminate]. injection H as <-. simpl.
  pose proof S as S'. apply scan_found in S' as [_ S2].
  apply scan_keeps_inv in S; [|split; [constructor | discriminate]].
  split; [exists pos; split; [reflexivity | lia]|].
  split; [exact E1|]. split; [exact E2|]. apply finalParams_ok, S.
Qed.

Definition shortcode_ok (it : PageItem) : Prop :=
  match it with
  | Shortcode _ v n ps _ _ =>
      startsWith v (lit "{{<") = true /\ n <> [] /\ forallb is_name_char n = true
      /\ Forall param_ok ps
  | Item _ _ _ => True
  end.

Lemma pcws_loop_shortcodes : forall fuel content startPos currentPos,
  Forall shortcode_ok (pcws_loop fuel content startPos currentPos).
Proof.
  induction fuel as [|fuel IH]; intros content startPos cur; simpl; [constructor|].
  destruct (cur <? length content); [|constructor].
  destruct (indexOf content (lit "{{<") cur) as [k|] eqn:Hk; [|repeat constructor].
  apply indexOf_spec in Hk as [_ Hsw].
  apply Forall_app. split; [destruct (cur <? k); repeat constructor|].
  destruct (parseShortcode (skipn k content)) as [r|] eqn:Hp; constructor; auto; [|exact I].
  apply parseShortcode_shape in Hp as [[pos [Ho Hpos]] [H1 [H2 H3]]].
  simpl. rewrite Ho. split; [apply startsWith_firstn; [exact Hsw | simpl; lia]|]. auto.
Qed.

Lemma processSummaryDividerAndContent_shortcodes : forall content startPos,
  Forall shortcode_ok (processSummaryDividerAndContent content startPos).
Proof.
  intros content startPos. unfold processSummaryDividerAndContent, parseContentWithShortcodes.
  destruct (summaryDividerMatch content) as [[i len]|]; [|apply pcws_loop_shortcodes].
  apply Forall_app. split; [apply pcws_loop_shortcodes|].
  constructor; [exact I | apply pcws_loop_shortcodes].
Qed.

(** Every shortcode item of the lexer starts with the opening delimiter,
    carries a nonempty name made of [[a-zA-Z0-9_.-]] characters, and only
    nonempty parameters without surrounding whitespace. *)
Theorem X4_shortcode_item_shape : forall text pos v n ps cl il,
  In (Shortcode pos v n ps cl il) (items (parse text)) ->
  startsWith v (lit "{{<") = true /\ n <> [] /\ forallb is_name_char n = true
  /\ Forall (fun p => p <> [] /\ trim p = p) ps.
Proof.
  intros text pos v n ps cl il H.
  assert (Hall : Forall shortcode_ok (items (parse text))).
  { unfold parse. destruct (fm_has (extractFrontmatter text)); simpl.
    - constructor; [exact I | apply processSummaryDividerAndContent_shortcodes].
    - apply processSummaryDividerAndContent_shortcodes. }
  rewrite Forall_forall in Hall. exact (Hall _ H).
Qed.

Lemma X4_witness : let text := lit "a{{< x  k=v  'y z' >}}" in
  In (Shortcode 1 (lit "{{< x  k=v  'y z' >}}") (lit "x") [lit "k=v"; lit "'y z'"] false false)
     (items (parse text))
  /\ startsWith (lit "{{< x  k=v  'y z' >}}") (lit "{{<") = true /\ lit "x" <> []
  /\ forallb is_name_char (lit "x") = true
  /\ Forall (fun p => p <> [] /\ trim p = p) [lit "k=v"; lit "'y z'"].
Proof.
  intros text. split; [vm_compute; auto|].
  apply (X4_shortcode_item_shape text 1 _ _ _ false false). vm_compute; auto.
Defined.

(** ** The pairs of the first pass nest *)

Fixpoint stack_desc (st : list (nat * PageItem)) : Prop :=
  match st with
  | [] => True
  | (j, _) :: r => Forall (fun e => fst e < j) r /\ stack_desc r
  end.

Definition laminar (pairs : list ShortcodePair) : Prop :=
  forall p q, In p pairs -> In q pairs -> p_start p < p_start q ->
  p_end q < p_end p \/ p_end p < p_start q.

Definition ml_inv (i : nat) (stack : list (nat * PageItem)) (pairs : list ShortcodePair) : Prop :=
  stack_desc stack /\ Forall (fun e => fst e < i) stack
  /\ Forall (fun p => p_start p < p_end p < i) pairs
  /\ Forall (fun e => Forall (fun p => fst e < p_start p \/ p_end p < fst e) pairs) stack
  /\ NoDup (map p_start pairs) /\ laminar pairs.

Lemma NoDup_snoc : forall (A : Type) (l : list A) x, NoDup l -> ~ In x l -> NoDup (l ++ [x]).
Proof.
  intros A l x H Hx. apply (Permutation_NoDup (l := x :: l)); [|constructor; assumption].
  apply Permutation_cons_append.
Qed.

Lemma ml_inv_next : forall i stack pairs, ml_inv i stack pairs -> ml_inv (S i) stack pairs.
Proof.
  intros i stack pairs [H1 [H2 [H3 [H4 [H5 H6]]]]].
  repeat split; auto.
  - eapply Forall_impl; [|exact H2]. simpl. intros; lia.
  - eapply Forall_impl; [|exact H3]. simpl. intros; lia.
Qed.

Lemma ml_inv_pop : forall i j op stack pairs,
  ml_inv i ((j, op) :: stack) pairs -> ml_inv i stack pairs.
Proof.
  intros i j op stack pairs [[_ H1] [H2 [H3 [H4 [H5 H6]]]]].
  inversion H2; inversion H4; subst. repeat split; auto.
Qed.

Lemma ml_inv_push : forall i it stack pairs,
  ml_inv i stack pairs -> ml_inv (S i) ((i, it) :: stack) pairs.
Proof.
  intros i it stack pairs [H1 [H2 [H3 [H4 [H5 H6]]]]].
  split; [split; assumption|]. split.
  { constructor; [simpl; lia|]. eapply Forall_impl; [|exact H2]. simpl. intros; lia. }
  split; [eapply Forall_impl; [|exact H3]; simpl; intros; lia|].
  split; [|split; assumption].
  constructor; [|exact H4].
  eapply Forall_impl; [|exact H3]. simpl. intros; lia.
Qed.

Lemma ml_inv_pair : forall i j op stack pairs,
  ml_inv i ((j, op) :: stack) pairs ->
  ml_inv (S i) stack (pairs ++ [Build_ShortcodePair j i op]).
Proof.
  intros i j op stack pairs [[Hds Hd] [H2 [H3 [H4 [H5 H6]]]]].
  inversion H2 as [|? ? Hj H2']; inversion H4 as [|? ? Hjp H4']; subst. simpl in Hj, Hjp.
  rewrite Forall_forall in Hjp, H3.
  split; [exact Hd|]. split; [|split; [|split; [|split]]].
  - eapply Forall_impl; [|exact H2']. simpl. intros; lia.
  - apply Forall_app. split; [|constructor; [simpl; lia | constructor]].
    apply Forall_forall. intros p Hp. specialize (H3 p Hp). lia.
  - rewrite Forall_forall in H4' |- *. intros e He.
    apply Forall_app. split; [exact (H4' e He)|].
    rewrite Forall_forall in Hds. specialize (Hds e He).
    constructor; [simpl; lia | constructor].
  - rewrite map_app. apply NoDup_snoc; [exact H5|]. simpl.
    intros Hin. apply in_map_iff in Hin as [p [Hps Hp]].
    specialize (Hjp p Hp). specialize (H3 p Hp). lia.
  - intros p q Hp Hq Hlt. apply in_app_iff in Hp, Hq.
    destruct Hp as [Hp|[<-|[]]]; destruct Hq as [Hq|[<-|[]]]; simpl in *.
    + apply H6; assumption.
    + specialize (Hjp p Hp). specialize (H3 p Hp). lia.
    + specialize (H3 q Hq). lia.
    + lia.
Qed.

Lemma match_loop_nest : forall r i stack pairs,
  ml_inv i stack pairs ->
  let ps := match_loop r i stack pairs in
  NoDup (map p_start ps) /\ Forall (fun p => p_start p < p_end p) ps /\ laminar ps.
Proof.
  induction r as [|it r IH]; intros i stack pairs Hi; simpl.
  - destruct Hi as [_ [_ [H3 [_ [H5 H6]]]]]. repeat split; auto.
    eapply Forall_impl; [|exact H3]. simpl. intros; lia.
  - destruct it as [t p v|p v name ps isClosing isInline].
    + apply IH, ml_inv_next, Hi.
    + destruct isClosing.
      * destruct stack as [|[j op] stack'].
        -- apply IH, ml_inv_next, Hi.
        -- destruct (str_eqb (item_name op) name).
           ++ apply IH, ml_inv_pair, Hi.
           ++ apply IH, ml_inv_next. eapply ml_inv_pop. exact Hi.
      * destruct (negb isInline); [apply IH, ml_inv_push, Hi | apply IH, ml_inv_next, Hi].
Qed.

(** The first pass of [processItems] pairs every closing tag with the
    latest open tag: the pairs it records have distinct starts, each opens
    before it closes, and two pairs are either nested or disjoint. *)
Theorem X5_pairs_nest : forall its,
  let ps := findPairs its in
  NoDup (map p_start ps) /\ Forall (fun p => p_start p < p_end p) ps
  /\ (forall p q, In p ps -> In q ps -> p_start p < p_start q ->
      p_end q < p_end p \/ p_end p < p_start q).
Proof.
  intros its. apply match_loop_nest.
  unfold ml_inv. simpl. repeat split; try constructor.
  all: match goal with H : In _ [] |- _ => destruct H end.
Qed.

(** ** The step-render cache written by [processItems] *)

Definition ph_key (k : nat) : str := placeholder_prefix ++ nat_to_str k.

Lemma uint_digits_inj : forall a b, uint_digits a = uint_digits b -> a = b.
Proof.
  induction a; destruct b; simpl; intros H; try discriminate;
    try reflexivity; injection H as H; f_equal; apply IHa, H.
Qed.

Lemma ph_key_inj : forall n m, ph_key n = ph_key m -> n = m.
Proof.
  intros n m H. unfold ph_key in H. apply app_inv_head in H.
  apply uint_digits_inj in H. apply DecimalNat.Unsigned.to_uint_inj, H.
Qed.

Lemma str_eqb_neq : forall a b, a <> b -> str_eqb a b = false.
Proof.
  intros a b H. destruct (str_eqb a b) eqn:E; [|reflexivity].
  apply str_eqb_eq in E. contradiction.
Qed.

Lemma assoc_set_fresh : forall {V} (m : list (str * V)) k v,
  ~ In k (map fst m) -> assoc_set str_eqb m k v = m ++ [(k, v)].
Proof.
  induction m as [|[k' v'] m IH]; intros k v H; simpl; [reflexivity|].
  simpl in H. rewrite str_eqb_neq by (intro; apply H; left; congruence).
  f_equal. apply IH. intro; apply H; right; assumption.
Qed.

Definition ph_inv (s : PState) : Prop :=
  map fst (st_cache s) = map ph_key (seq 0 (st_index s)) /\ st_index s = length (st_log s).

Lemma ph_inv_add : forall (cache : list (str * str)) n v,
  map fst cache = map ph_key (seq 0 n) ->
  map fst (assoc_set str_eqb cache (ph_key n) v) = map ph_key (seq 0 (S n)).
Proof.
  intros cache n v H. rewrite assoc_set_fresh.
  - rewrite map_app, H, seq_S, map_app. reflexivity.
  - rewrite H. intros Hin. apply in_map_iff in Hin as [k [Hk Hin]].
    apply ph_key_inj in Hk. apply in_seq in Hin. lia.
Qed.

Section StepCache.
Variable sr : ShortcodeRenderer.
Variable mk : str -> str.
Variable opts : PageRenderOptions.
Variable its : list PageItem.
Variable pairs : list ShortcodePair.

Section On.
Hypothesis Hstep : stepRender opts = true.

Lemma render_single_inv : forall it s v s',
  ph_inv s -> render_single sr opts it s = (v, s') -> ph_inv s'.
Proof.
  intros it s v s' [H1 H2] E. unfold render_single, call in E. rewrite Hstep in E.
  injection E as _ <-. split; simpl.
  - apply ph_inv_add, H1.
  - rewrite length_app. simpl. lia.
Qed.

Lemma collect_inv : forall fuel i stop content s,
  ph_inv s -> ph_inv (snd (collect sr mk opts its pairs fuel i stop content s)).
Proof.
  induction fuel as [|f IH]; intros i stop content s H; simpl; [exact H|].
  destruct (i <? stop); [|exact H].
  destruct (nth_error its i) as [[t p v|p v n ps cl il]|]; [apply IH, H| |exact H].
  destruct (il || (negb cl && negb (has_pair_at pairs i))).
  - destruct (render_single sr opts _ s) as [v' s'] eqn:E.
    apply IH. eapply render_single_inv; eassumption.
  - destruct (negb cl); [|apply IH, H].
    destruct (find_pair_at pairs i) as [ip|]; [|apply IH, H].
    destruct (assoc_get range_eqb (st_processed s) (p_start ip, p_end ip)) as [r|]; [|apply IH, H].
    destruct (nonempty r); apply IH, H.
Qed.

Lemma process_pair_inv : forall acc pr,
  ph_inv (snd acc) -> ph_inv (snd (process_pair sr mk opts its pairs acc pr)).
Proof.
  intros [ranges s] pr H. simpl in H. unfold process_pair.
  destruct (existsb _ ranges); [exact H|].
  pose proof (collect_inv (S (length its)) (S (p_start pr)) (p_end pr) [] s H) as Hc.
  destruct (collect _ _ _ _ _ _ _ _ _ _) as [c s1] eqn:E. simpl in Hc.
  destruct Hc as [H1 H2]. unfold call. rewrite Hstep. split; simpl.
  - apply ph_inv_add, H1.
  - rewrite length_app. simpl. lia.
Qed.

Lemma final_pass_inv : forall fuel i s,
  ph_inv s -> ph_inv (snd (final_pass sr opts its pairs fuel i s)).
Proof.
  induction fuel as [|f IH]; intros i s H; simpl; [exact H|].
  destruct (nth_error its i) as [[t p v|p v n ps cl il]|]; [| |exact H].
  - specialize (IH (S i) s H). destruct (final_pass _ _ _ _ f (S i) s). exact IH.
  - destruct (_ || _).
    + destruct (render_single sr opts _ s) as [v' s1] eqn:E.
      apply (render_single_inv _ _ _ _ H) in E.
      specialize (IH (S i) s1 E). destruct (final_pass _ _ _ _ f (S i) s1). exact IH.
    + destruct (negb cl); [|apply IH, H].
      destruct (find_pair_at pairs i) as [pr|]; [|apply IH, H].
      destruct (assoc_get range_eqb (st_processed s) (p_start pr, p_end pr)) as [r|]; [|apply IH, H].
      destruct (nonempty r); [|apply IH, H].
      specialize (IH (S (p_end pr)) s H). destruct (final_pass _ _ _ _ f _ s). exact IH.
Qed.
End On.

Section Off.
Hypothesis Hoff : stepRender opts = false.

Lemma render_single_cache : forall it s v s',
  render_single sr opts it s = (v, s') -> st_cache s' = st_cache s.
Proof.
  intros it s v s' E. unfold render_single, call in E. rewrite Hoff in E.
  injection E as _ <-. reflexivity.
Qed.

Lemma collect_cache : forall fuel i stop content s,
  st_cache (snd (collect sr mk opts its pairs fuel i stop content s)) = st_cache s.
Proof.
  induction fuel as [|f IH]; intros i stop content s; simpl; [reflexivity|].
  destruct (i <? stop); [|reflexivity].
  destruct (nth_error its i) as [[t p v|p v n ps cl il]|]; [apply IH| |reflexivity].
  destruct (il || (negb cl && negb (has_pair_at pairs i))).
  - destruct (render_single sr opts _ s) as [v' s'] eqn:E.
    rewrite IH. eapply render_single_cache; eassumption.
  - destruct (negb cl); [|apply IH].
    destruct (find_pair_at pairs i) as [ip|]; [|apply IH].
    destruct (assoc_get range_eqb (st_processed s) (p_start ip, p_end ip)) as [r|]; [|apply IH].
    destruct (nonempty r); apply IH.
Qed.

Lemma process_pair_cache : forall acc pr,
  st_cache (snd (process_pair sr mk opts its pairs acc pr)) = st_cache (snd acc).
Proof.
  intros [ranges s] pr. unfold process_pair.
  destruct (existsb _ ranges); [reflexivity|].
  pose proof (collect_cache (S (length its)) (S (p_start pr)) (p_end pr) [] s) as Hc.
  destruct (collect _ _ _ _ _ _ _ _ _ _) as [c s1] eqn:E. simpl in Hc.
  unfold call. rewrite Hoff. exact Hc.
Qed.

Lemma final_pass_cache : forall fuel i s,
  st_cache (snd (final_pass sr opts its pairs fuel i s)) = st_cache s.
Proof.
  induction fuel as [|f IH]; intros i s; simpl; [reflexivity|].
  destruct (nth_error its i) as [[t p v|p v n ps cl il]|]; [| |reflexivity].
  - specialize (IH (S i) s). destruct (final_pass _ _ _ _ f (S i) s). exact IH.
  - destruct (_ || _).
    + destruct (render_single sr opts _ s) as [v' s1] eqn:E.
      apply render_single_cache in E.
      specialize (IH (S i) s1). destruct (final_pass _ _ _ _ f (S i) s1). simpl in *. congruence.
    + destruct (negb cl); [|apply IH].
      destruct (find_pair_at pairs i) as [pr|]; [|apply IH].
      destruct (assoc_get range_eqb (st_processed s) (p_start pr, p_end pr)) as [r|]; [|apply IH].
      destruct (nonempty r); [|apply IH].
      specialize (IH (S (p_end pr)) s). destruct (final_pass _ _ _ _ f _ s). exact IH.
Qed.
End Off.
End StepCache.

Lemma fold_left_inv : forall {A B} (P : A -> Prop) (f : A -> B -> A) l a,
  (forall a b, P a -> P (f a b)) -> P a -> P (fold_left f l a).
Proof.
  intros A B P f l. induction l as [|b l IH]; intros a Hf Ha; simpl; [exact Ha|].
  apply IH; [exact Hf | apply Hf, Ha].
Qed.

Lemma render_cache_of : forall pr text opts,
  stepRenderCache (renderer_after (render pr text opts))
  = snd (fst (processItems (shortcodeRenderer pr) (markedInstance pr) (items (parse text)) opts
                (stepRenderCache pr)))
  /\ invocations (render pr text opts)
     = snd (processItems (shortcodeRenderer pr) (markedInstance pr) (items (parse text)) opts
              (stepRenderCache pr)).
Proof.
  intros pr text opts. unfold render, renderLexerResult, renderer_after, invocations.
  destruct (processItems _ _ _ _ _) as [[pit c'] log]. simpl. auto.
Qed.

(** With [stepRender] set, [render] replaces the step-render cache by the
    placeholders [_mdf_sc_0], [_mdf_sc_1], ... in order, one per call of a
    shortcode, whatever the cache held before. *)
Theorem X6_step_cache_keys : forall pr text opts,
  stepRender opts = true ->
  map fst (stepRenderCache (renderer_after (render pr text opts)))
  = map (fun k => placeholder_prefix ++ nat_to_str k)
        (seq 0 (length (invocations (render pr text opts)))).
Proof.
  intros pr text opts Hs. destruct (render_cache_of pr text opts) as [-> ->].
  unfold processItems. rewrite Hs.
  set (its := items (parse text)). set (pairs := sortPairs (findPairs its)).
  set (s0 := {| st_cache := []; st_index := 0; st_processed := []; st_log := [] |}).
  assert (H0 : ph_inv (snd (([] : list (nat * nat)), s0))) by (split; reflexivity).
  pose proof (fold_left_inv (fun acc => ph_inv (snd acc))
                (process_pair (shortcodeRenderer pr) (markedInstance pr) opts its pairs) pairs _
                (fun a b Ha => process_pair_inv _ _ _ _ _ Hs a b Ha) H0) as H1.
  destruct (fold_left _ pairs _) as [rs s1]. simpl in H1.
  pose proof (final_pass_inv (shortcodeRenderer pr) opts its pairs Hs (S (length its)) 0 s1 H1) as H2.
  destruct (final_pass _ _ _ _ _ _ _) as [res s2]. simpl in H2.
  destruct H2 as [H2 H3]. simpl. rewrite H2, H3. reflexivity.
Qed.

Lemma X6_witness :
  stepRender stepOptions = true
  /\ map fst (stepRenderCache (renderer_after (render (newPageRenderer reg_k id) (lit "{{< k />}} {{< k />}}") stepOptions)))
     = map (fun k => placeholder_prefix ++ nat_to_str k)
           (seq 0 (length (invocations (render (newPageRenderer reg_k id) (lit "{{< k />}} {{< k />}}") stepOptions)))).
Proof.
  split; [reflexivity|]. apply X6_step_cache_keys. reflexivity.
Defined.

(** Without [stepRender], [render] leaves the step-render cache as it was. *)
Theorem X7_no_step_cache_kept : forall pr text opts,
  stepRender opts = false ->
  stepRenderCache (renderer_after (render pr text opts)) = stepRenderCache pr.
Proof.
  intros pr text opts Hs. destruct (render_cache_of pr text opts) as [-> _].
  unfold processItems. rewrite Hs.
  set (its := items (parse text)). set (pairs := sortPairs (findPairs its)).
  set (s0 := {| st_cache := stepRenderCache pr; st_index := 0; st_processed := []; st_log := [] |}).
  pose proof (fold_left_inv (fun acc => st_cache (snd acc) = stepRenderCache pr)
                (process_pair (shortcodeRenderer pr) (markedInstance pr) opts its pairs) pairs
                ([], s0)
                (fun a b Ha => eq_trans (process_pair_cache _ _ _ _ _ Hs a b) Ha) eq_refl) as H1.
  destruct (fold_left _ pairs _) as [rs s1]. simpl in H1.
  pose proof (final_pass_cache (shortcodeRenderer pr) opts its pairs Hs (S (length its)) 0 s1) as H2.
  destruct (final_pass _ _ _ _ _ _ _) as [res s2]. simpl in *. congruence.
Qed.

Lemma X7_witness :
  stepRender defaultOptions = false
  /\ stepRenderCache (renderer_after (render (with_cache (newPageRenderer reg_k id) [(lit "_mdf_sc_0", lit "K")])
                                       (lit "{{< k />}}") defaultOptions))
     = [(lit "_mdf_sc_0", lit "K")].
Proof.
  split; [reflexivity|].
  exact (X7_no_step_cache_kept (with_cache (newPageRenderer reg_k id) [(lit "_mdf_sc_0", lit "K")])
           (lit "{{< k />}}") defaultOptions eq_refl).
Defined.

(** ** The summary of a rendered page lies inside its content *)

Lemma trimEnd_prefix : forall s, exists t, s = trimEnd s ++ t.
Proof.
  intros s. destruct (trimStart_suffix (rev s)) as [w Hw].
  exists (rev w). unfold trimEnd. rewrite <- rev_app_distr, <- Hw, rev_involutive. reflexivity.
Qed.

Lemma trim_infix : forall s, exists a b, s = a ++ trim s ++ b.
Proof.
  intros s. destruct (trimStart_suffix s) as [w Hw].
  destruct (trimEnd_prefix (trimStart s)) as [t Ht].
  exists w, t. unfold trim. rewrite <- Ht. exact Hw.
Qed.

Lemma compose_prefix : forall opts its c s f,
  (f = false -> s = c) -> (exists t, c = s ++ t) ->
  exists t, fst (compose opts its c s f) = snd (compose opts its c s f) ++ t.
Proof.
  intros opts. induction its as [|it r IH]; intros c s f Hf [t Ht]; simpl; [exists t; exact Ht|].
  assert (Hstep : exists t', c ++ item_val it = (if f then s else s ++ item_val it) ++ t').
  { destruct f; [exists (t ++ item_val it); rewrite Ht, app_assoc; reflexivity|].
    exists []. rewrite (Hf eq_refl), app_nil_r. reflexivity. }
  assert (Hf' : f = false -> (if f then s else s ++ item_val it) = c ++ item_val it).
  { intros ->. rewrite (Hf eq_refl). reflexivity. }
  destruct (item_type it); [destruct (preserveFrontmatter opts)| | |].
  - apply IH; assumption.
  - apply IH; [exact Hf | exists t; exact Ht].
  - apply IH; assumption.
  - apply IH; [discriminate|].
    set (c1 := if nonempty c && negb (endsWith c (lit "
")) then c ++ lit "
" else c).
    assert (H1 : exists u, c1 = c ++ u).
    { unfold c1. destruct (_ && _); [eexists; reflexivity | exists []; rewrite app_nil_r; reflexivity]. }
    destruct H1 as [u Hu].
    assert (H3 : exists v, match r with
                           | nextItem :: _ =>
                               if negb (startsWith (item_val nextItem) (lit "
")) then (c1 ++ lit "<!-- more -->") ++ lit "
" else c1 ++ lit "<!-- more -->"
                           | [] => c1 ++ lit "<!-- more -->"
                           end = c1 ++ v).
    { destruct r as [|n r']; [|destruct (negb (startsWith (item_val n) _))].
      - exists (lit "<!-- more -->"). reflexivity.
      - exists (lit "<!-- more -->" ++ lit "
"). rewrite app_assoc. reflexivity.
      - exists (lit "<!-- more -->"). reflexivity. }
    destruct H3 as [v Hv]. rewrite Hv, Hu, Ht. exists (t ++ u ++ v).
    rewrite !app_assoc. reflexivity.
  - apply IH; assumption.
Qed.

Lemma compose_summary_prefix : forall opts its,
  exists t, fst (compose opts its [] [] false) = snd (compose opts its [] [] false) ++ t.
Proof.
  intros opts its. apply compose_prefix; [reflexivity | exists []; reflexivity].
Qed.

Lemma compose_result_infix : forall opts its,
  let '(c, s) := compose opts its [] [] false in exists a b, c = a ++ trimEnd s ++ b.
Proof.
  intros opts its. destruct (compose_summary_prefix opts its) as [t Ht].
  destruct (compose opts its [] []) as [c s]. simpl in Ht.
  destruct (trimEnd_prefix s) as [u Hu].
  exists [], (u ++ t). rewrite Ht, Hu at 1. simpl. rewrite app_assoc. reflexivity.
Qed.

(** The summary [render] returns is a contiguous piece of the content it
    returns. *)
Theorem X8_summary_within_content : forall pr text opts,
  let res := fst (fst (render pr text opts)) in
  exists a b, content res = a ++ summary res ++ b.
Proof.
  intros pr text opts. unfold render, renderLexerResult.
  destruct (processItems _ _ _ _ _) as [[pit c'] log]. simpl.
  destruct pit as [|it [|it2 r]].
  - exists [], []. reflexivity.
  - destruct (item_type it) eqn:Et.
    + pose proof (compose_result_infix opts [it]) as H.
      destruct (compose opts [it] [] []) as [c s]. exact H.
    + pose proof (compose_result_infix opts [it]) as H.
      destruct (compose opts [it] [] []) as [c s]. exact H.
    + exists [], []. reflexivity.
    + simpl. apply trim_infix.
  - pose proof (compose_result_infix opts (it :: it2 :: r)) as H.
    destruct (compose opts (it :: it2 :: r) [] []) as [c s]. exact H.
Qed.

(** ** The shortcode registry *)

Lemma str_eqb_sym : forall a b, str_eqb a b = str_eqb b a.
Proof.
  intros a b. destruct (str_eqb b a) eqn:E.
  - apply str_eqb_eq in E. subst. apply str_eqb_refl.
  - destruct (str_eqb a b) eqn:E'; [|reflexivity].
    apply str_eqb_eq in E'. subst. rewrite str_eqb_refl in E. discriminate.
Qed.

Lemma assoc_get_set : forall {V} (m : list (str * V)) k v k',
  assoc_get str_eqb (assoc_set str_eqb m k v) k'
  = if str_eqb k' k then Some v else assoc_get str_eqb m k'.
Proof.
  induction m as [|[k0 v0] m IH]; intros k v k'; simpl.
  - destruct (str_eqb k' k); reflexivity.
  - destruct (str_eqb k k0) eqn:E.
    + apply str_eqb_eq in E. subst k0. simpl. destruct (str_eqb k' k); reflexivity.
    + simpl. rewrite IH. destruct (str_eqb k' k0) eqn:E1; [|reflexivity].
      apply str_eqb_eq in E1. subst k0.
      destruct (str_eqb k' k) eqn:E2; [|reflexivity].
      apply str_eqb_eq in E2. subst. rewrite str_eqb_refl in E. discriminate.
Qed.

(** After [registerShortcode(name, f)], an item called [name] is rendered
    by [f] alone, as in a registry holding only [f]; an item of another
    name is rendered as before. *)
Theorem X9_register_then_render : forall r name f it c opts,
  renderShortcodeItem (registerShortcode r name f) it c opts
  = if str_eqb (item_name it) name
    then renderShortcodeItem {| shortcodes := [(name, f)]; sr_onError := sr_onError r |} it c opts
    else renderShortcodeItem r it c opts.
Proof.
  intros r name f it c opts. unfold renderShortcodeItem, registerShortcode. simpl.
  rewrite assoc_get_set. destruct (str_eqb (item_name it) name) eqn:E; reflexivity.
Qed.

(** [getShortcode(name)]. *)
Definition getShortcode (r : ShortcodeRenderer) (name : str) : option ShortcodeFn :=
  assoc_get str_eqb (shortcodes r) name.

(** After [registerShortcodes(entries)], [getShortcode(name)] gives the last
    entry of that name, or what was registered before when no entry has
    that name. *)
Theorem X10_registerShortcodes_last_wins : forall r entries name,
  getShortcode (registerShortcodes r entries) name
  = match find (fun e => str_eqb (fst e) name) (rev entries) with
    | Some e => Some (snd e)
    | None => getShortcode r name
    end.
Proof.
  intros r entries name. unfold getShortcode, registerShortcodes.
  induction entries as [|[n f] es IH] using rev_ind; [reflexivity|].
  rewrite fold_left_app, rev_app_distr. simpl.
  rewrite assoc_get_set, str_eqb_sym. destruct (str_eqb n name); [reflexivity | exact IH].
Qed.

(** ** Named parameters of the template data provider *)

Lemma split_on_none : forall sep s, ~ In sep s -> split_on sep s = [s].
Proof.
  intros sep. induction s as [|c s IH]; intros H; [reflexivity|]. simpl.
  destruct (char_eqb c sep) eqn:E.
  - apply N.eqb_eq in E. subst. exfalso. apply H. left. reflexivity.
  - rewrite IH; [reflexivity|]. intro; apply H; right; assumption.
Qed.

Lemma split_on_first : forall sep a b, ~ In sep a -> split_on sep (a ++ sep :: b) = a :: split_on sep b.
Proof.
  intros sep. induction a as [|c a IH]; intros b H; simpl.
  - unfold char_eqb. rewrite N.eqb_refl. reflexivity.
  - destruct (char_eqb c sep) eqn:E.
    + apply N.eqb_eq in E. subst. exfalso. apply H. left. reflexivity.
    + rewrite IH; [reflexivity|]. intro; apply H; right; assumption.
Qed.

Lemma startsWith_app : forall p s, startsWith (p ++ s) p = true.
Proof.
  induction p as [|x p IH]; intros s; [destruct s; reflexivity|].
  simpl. unfold char_eqb. rewrite N.eqb_refl. apply IH.
Qed.

Lemma find_skip : forall {A} (f : A -> bool) l r,
  Forall (fun x => f x = false) l -> find f (l ++ r) = find f r.
Proof.
  intros A f l r H. induction H as [|x l Hx _ IH]; [reflexivity|]. simpl. rewrite Hx. exact IH.
Qed.

(** [Get(name)] finds the first parameter [name=v] and returns [v] with a
    leading and a final quote removed, when neither [name] nor [v] holds
    an [=] and no earlier parameter starts with [name=]. *)
Theorem X11_get_named_param : forall pre name v post,
  ~ In 61%N name -> ~ In 61%N v ->
  Forall (fun p => startsWith p (name ++ [61%N]) = false) pre ->
  dp_Get (pre ++ (name ++ 61%N :: v) :: post) (KeyName name) = Some (strip_quotes v).
Proof.
  intros pre name v post Hn Hv Hpre. simpl.
  rewrite (find_skip _ _ _ Hpre).
  simpl. replace (name ++ 61%N :: v) with ((name ++ [61%N]) ++ v) by (rewrite <- app_assoc; reflexivity).
  rewrite startsWith_app. rewrite <- app_assoc. simpl.
  rewrite split_on_first by exact Hn. rewrite split_on_none by exact Hv. reflexivity.
Qed.

Lemma X11_witness :
  ~ In 61%N (lit "title") /\ ~ In 61%N (lit "'Hi'") /\
  Forall (fun p => startsWith p (lit "title" ++ [61%N]) = false) [lit "a"] /\
  dp_Get ([lit "a"] ++ (lit "title" ++ 61%N :: lit "'Hi'") :: []) (KeyName (lit "title"))
  = Some (lit "Hi").
Proof.
  split; [simpl; intuition discriminate|]. split; [simpl; intuition discriminate|].
  split; [repeat constructor|].
  exact (X11_get_named_param [lit "a"] (lit "title") (lit "'Hi'") []
           ltac:(simpl; intuition discriminate) ltac:(simpl; intuition discriminate)
           ltac:(repeat constructor)).
Defined.

(** ** Flattening the step-render cache *)

Lemma insert_key_perm : forall memo x l, Permutation (insert_key memo x l) (x :: l).
Proof.
  intros memo x. induction l as [|y l IH]; simpl; [reflexivity|].
  destruct (depth_of memo x <? depth_of memo y); [reflexivity|].
  eapply perm_trans; [apply perm_skip, IH | apply perm_swap].
Qed.

Lemma sortKeys_perm : forall memo keys, Permutation (sortKeys memo keys) keys.
Proof.
  intros memo keys. unfold sortKeys.
  assert (H : forall acc, Permutation (fold_left (fun acc k => insert_key memo k acc) keys acc)
                                      (keys ++ acc)).
  { induction keys as [|k ks IH]; intros acc; simpl; [reflexivity|].
    eapply perm_trans; [apply IH|].
    eapply perm_trans; [apply Permutation_app_head, insert_key_perm|].
    apply Permutation_sym, Permutation_middle. }
  rewrite <- (app_nil_r keys) at 2. apply H.
Qed.

Section SetFold.
Variable F : list (str * str) -> str -> list (str * str).
Hypothesis HF : forall acc ph, exists w, F acc ph = assoc_set str_eqb acc ph w.

Lemma set_fold_keys : forall l acc,
  NoDup (map fst acc ++ l) -> map fst (fold_left F l acc) = map fst acc ++ l.
Proof.
  induction l as [|x l IH]; intros acc H; simpl; [rewrite app_nil_r; reflexivity|].
  destruct (HF acc x) as [w Hw]. rewrite Hw.
  assert (Hx : ~ In x (map fst acc)).
  { intro Hin. apply NoDup_remove_2 in H. apply H, in_or_app. left. exact Hin. }
  rewrite IH; rewrite assoc_set_fresh by exact Hx; rewrite map_app; simpl;
    [rewrite <- app_assoc; reflexivity | rewrite <- app_assoc; exact H].
Qed.

Lemma set_fold_other : forall k l acc,
  ~ In k l -> assoc_get str_eqb (fold_left F l acc) k = assoc_get str_eqb acc k.
Proof.
  intros k. induction l as [|x l IH]; intros acc H; simpl; [reflexivity|].
  rewrite IH by (intro; apply H; right; assumption).
  destruct (HF acc x) as [w ->]. rewrite assoc_get_set.
  rewrite str_eqb_neq; [reflexivity|]. intro; apply H; left; congruence.
Qed.
End SetFold.

Lemma assoc_get_in : forall (m : list (str * str)) k v,
  NoDup (map fst m) -> In (k, v) m -> assoc_get str_eqb m k = Some v.
Proof.
  induction m as [|[k' v'] m IH]; intros k v Hn Hin; [destruct Hin|].
  simpl in *. inversion Hn as [|? ? Hk Hn']; subst.
  destruct Hin as [Heq|Hin].
  - injection Heq as -> ->. rewrite str_eqb_refl. reflexivity.
  - rewrite str_eqb_neq; [apply IH; assumption|].
    intros ->. apply Hk. apply in_map_iff. exists (k', v). auto.
Qed.

(** What [processNestedInCache] does to the keys and to entries without
    placeholders, for a cache with distinct keys. *)
Lemma processNestedInCache_spec : forall cache cache',
  NoDup (map fst cache) -> processNestedInCache cache = Some cache' ->
  Permutation (map fst cache') (map fst cache)
  /\ (forall k v, In (k, v) cache -> placeholder_matches v = [] ->
      assoc_get str_eqb cache' k = Some v).
Proof.
  intros cache cache' Hnd H. unfold processNestedInCache in H.
  destruct (depth_all _ _ _ _) as [memo|]; [|discriminate]. injection H as <-.
  set (F := fun processedCache ph =>
              let c := match assoc_get str_eqb cache ph with Some v => v | None => js_undefined end in
              match placeholder_matches c with
              | [] => assoc_set str_eqb processedCache ph c
              | _ => assoc_set str_eqb processedCache ph (flatten_entry cache processedCache c)
              end).
  assert (HF : forall acc ph, exists w, F acc ph = assoc_set str_eqb acc ph w).
  { intros acc ph. unfold F. destruct (placeholder_matches _); eexists; reflexivity. }
  pose proof (sortKeys_perm memo (map fst cache)) as Hp.
  assert (Hs : NoDup (sortKeys memo (map fst cache))).
  { eapply Permutation_NoDup; [apply Permutation_sym, Hp | exact Hnd]. }
  split.
  - rewrite (set_fold_keys F HF _ [] Hs). exact Hp.
  - intros k v Hin Hm.
    assert (Hk : In k (sortKeys memo (map fst cache))).
    { eapply Permutation_in; [apply Permutation_sym, Hp|]. apply in_map_iff. exists (k, v). auto. }
    apply in_split in Hk as [l1 [l2 Hl]]. rewrite Hl, fold_left_app. simpl.
    rewrite Hl in Hs. apply NoDup_remove_2 in Hs.
    rewrite (set_fold_other F HF) by (intro; apply Hs, in_or_app; right; assumption).
    destruct (HF (fold_left F l1 []) k) as [w Hw].
    assert (Hv : F (fold_left F l1 []) k = assoc_set str_eqb (fold_left F l1 []) k v).
    { unfold F. rewrite (assoc_get_in cache k v Hnd Hin). cbv zeta. rewrite Hm. reflexivity. }
    rewrite Hv, assoc_get_set, str_eqb_refl. reflexivity.
Qed.

(** For a cache with distinct keys, [finalRender] keeps the cache's keys
    (in some order) and leaves every entry whose value holds no
    placeholder as it was. *)
Theorem X12_finalRender_cache : forall pr text out pr',
  NoDup (map fst (stepRenderCache pr)) ->
  finalRender pr text = Some (out, pr') ->
  Permutation (map fst (stepRenderCache pr')) (map fst (stepRenderCache pr))
  /\ (forall k v, In (k, v) (stepRenderCache pr) -> placeholder_matches v = [] ->
      assoc_get str_eqb (stepRenderCache pr') k = Some v).
Proof.
  intros pr text out pr' Hnd H. unfold finalRender in H.
  destruct (stepRenderCache pr) as [|e es] eqn:Ec.
  - injection H as _ <-. rewrite Ec. split; [reflexivity | intros k v []].
  - destruct (processNestedInCache (e :: es)) as [c'|] eqn:Ep; [|discriminate].
    injection H as _ <-. exact (processNestedInCache_spec _ _ Hnd Ep).
Qed.

Lemma X12_witness :
  let pr := with_cache (newPageRenderer reg_k id)
              [(lit "_mdf_sc_0", lit "K"); (lit "_mdf_sc_1", lit "<_mdf_sc_0>")] in
  NoDup (map fst (stepRenderCache pr))
  /\ finalRender pr (lit "_mdf_sc_1")
     = Some (lit "<K>", with_cache (newPageRenderer reg_k id)
                          [(lit "_mdf_sc_0", lit "K"); (lit "_mdf_sc_1", lit "<K>")])
  /\ Permutation (map fst [(lit "_mdf_sc_0", lit "K"); (lit "_mdf_sc_1", lit "<K>")])
                 (map fst (stepRenderCache pr))
  /\ (forall k v, In (k, v) (stepRenderCache pr) -> placeholder_matches v = [] ->
      assoc_get str_eqb [(lit "_mdf_sc_0", lit "K"); (lit "_mdf_sc_1", lit "<K>")] k = Some v).
Proof.
  intros pr.
  assert (Hn : NoDup (map fst (stepRenderCache pr))).
  { simpl. constructor; [simpl; intros [H|[]]; discriminate|]. constructor; [intros []|constructor]. }
  assert (Hf : finalRender pr (lit "_mdf_sc_1")
     = Some (lit "<K>", with_cache (newPageRenderer reg_k id)
                          [(lit "_mdf_sc_0", lit "K"); (lit "_mdf_sc_1", lit "<K>")]))
    by (vm_compute; reflexivity).
  split; [exact Hn|]. split; [exact Hf|].
  exact (X12_finalRender_cache pr _ _ _ Hn Hf).
Defined.

(** [getProcessedCacheContent(ph)] gives [null] exactly for a placeholder
    that is not a key of the cache, and an entry without placeholders as it
    was (for a cache with distinct keys). *)
Theorem X13_getProcessedCacheContent : forall pr ph,
  NoDup (map fst (stepRenderCache pr)) ->
  exists r pr', getProcessedCacheContent pr ph = Some (r, pr')
  /\ (r = None <-> ~ In ph (map fst (stepRenderCache pr)))
  /\ (forall v, In (ph, v) (stepRenderCache pr) -> placeholder_matches v = [] -> r = Some v).
Proof.
  intros pr ph Hnd. unfold getProcessedCacheContent.
  destruct (processNestedInCache (stepRenderCache pr)) as [c'|] eqn:E;
    [|exfalso; exact (processNestedInCache_some _ E)].
  destruct (processNestedInCache_spec _ _ Hnd E) as [Hp Hv].
  eexists; eexists; split; [reflexivity|]. split; [|intros v Hin Hm; exact (Hv _ _ Hin Hm)].
  split.
  - intros Hg Hin. eapply Permutation_in in Hin; [|apply Permutation_sym, Hp].
    apply in_map_iff in Hin as [[k w] [Hk Hin]]. simpl in Hk. subst k.
    assert (Hn' : NoDup (map fst c')) by (eapply Permutation_NoDup; [apply Permutation_sym, Hp | exact Hnd]).
    rewrite (assoc_get_in c' ph w Hn' Hin) in Hg. discriminate.
  - intros Hnin. destruct (assoc_get str_eqb c' ph) as [w|] eqn:Eg; [|reflexivity].
    exfalso. apply Hnin. eapply Permutation_in; [exact Hp|].
    apply assoc_get_key in Eg. apply existsb_exists in Eg as [k [Hk Hs]].
    apply str_eqb_eq in Hs. subst. exact Hk.
Qed.

Lemma X13_witness :
  let pr := with_cache (newPageRenderer reg_k id) [(lit "_mdf_sc_0", lit "K")] in
  NoDup (map fst (stepRenderCache pr))
  /\ exists r pr', getProcessedCacheContent pr (lit "_mdf_sc_7") = Some (r, pr')
     /\ (r = None <-> ~ In (lit "_mdf_sc_7") (map fst (stepRenderCache pr)))
     /\ (forall v, In (lit "_mdf_sc_7", v) (stepRenderCache pr) -> placeholder_matches v = [] -> r = Some v).
Proof.
  intros pr.
  assert (Hn : NoDup (map fst (stepRenderCache pr))) by (simpl; constructor; [intros []|constructor]).
  split; [exact Hn|]. exact (X13_getProcessedCacheContent pr (lit "_mdf_sc_7") Hn).
Defined.

(** ** Where a frontmatter block ends *)

Lemma find_close_spec : forall P ls i e,
  find_close P ls i = Some e ->
  exists mid last post, ls = mid ++ last :: post /\ e = i + length mid
  /\ P (trim last) = true /\ Forall (fun l => P (trim l) = false) mid.
Proof.
  intros P. induction ls as [|l ls IH]; intros i e H; simpl in H; [discriminate|].
  destruct (P (trim l)) eqn:E.
  - injection H as <-. exists [], l, ls. simpl. repeat split; auto; lia.
  - apply IH in H as [mid [last [post [H1 [H2 [H3 H4]]]]]].
    exists (l :: mid), last, post. subst. simpl. repeat split; auto; lia.
Qed.

Lemma frontmatterClose_cases : forall f P,
  frontmatterClose f = Some P ->
  (f = lit "---" /\ P = fence_line (lit "---")) \/ (f = lit "+++" /\ P = fence_line (lit "+++"))
  \/ (f = lit "{{" /\ P = fence_line (lit "}}")).
Proof.
  intros f P H. unfold frontmatterClose in H.
  destruct (str_eqb f (lit "---")) eqn:E1; [apply str_eqb_eq in E1; injection H as <-; auto|].
  destruct (str_eqb f (lit "+++")) eqn:E2; [apply str_eqb_eq in E2; injection H as <-; auto|].
  destruct (str_eqb f (lit "{{")) eqn:E3; [apply str_eqb_eq in E3; injection H as <-; auto|].
  discriminate.
Qed.

Lemma startsWith_refl : forall s, startsWith s s = true.
Proof. intros s. rewrite <- (app_nil_r s) at 1. apply startsWith_app. Qed.

Lemma frontmatterOpen_prefix : forall t f, frontmatterOpen t = Some f -> startsWith t f = true.
Proof.
  intros t f H. unfold frontmatterOpen in H.
  destruct (startsWith t (lit "---")) eqn:E1; [injection H as <-; exact E1|].
  destruct (startsWith t (lit "+++")) eqn:E2; [injection H as <-; exact E2|].
  destruct (fence_line (lit "{{") t); [injection H as <-; apply startsWith_refl | discriminate].
Qed.

(** When [parse] recognises frontmatter, its format is [---], [+++] or
    [{{]; the frontmatter item is the first item and spans the lines of
    the text from the first one, whose trimmed text starts with the
    format, to the first later line whose trimmed text is the matching
    closing fence ([---], [+++] or [}}]) followed only by whitespace. *)
Theorem X14_frontmatter_block : forall text,
  hasFrontmatter (parse text) = true ->
  exists fmt cl first mid last post rest,
    frontmatterFormat (parse text) = Some fmt
    /\ ((fmt = lit "---" /\ cl = lit "---") \/ (fmt = lit "+++" /\ cl = lit "+++")
        \/ (fmt = lit "{{" /\ cl = lit "}}"))
    /\ split_nl text = first :: mid ++ last :: post
    /\ items (parse text) = Item T_frontmatter 0 (join_nl (first :: mid ++ [last])) :: rest
    /\ startsWith (trim first) fmt = true
    /\ fence_line cl (trim last) = true
    /\ Forall (fun l => fence_line cl (trim l) = false) mid.
Proof.
  intros text H. unfold parse in *. simpl in H.
  unfold extractFrontmatter in *.
  destruct (split_nl text) as [|first ls] eqn:Hl; [discriminate|].
  destruct (frontmatterOpen (trim first)) as [fmt|] eqn:Ho; [|discriminate].
  destruct (frontmatterClose fmt) as [P|] eqn:Ec; [|discriminate].
  destruct (find_close P ls 1) as [e|] eqn:Ef; [|discriminate].
  apply find_close_spec in Ef as [mid [last [post [H1 [H2 [H3 H4]]]]]].
  apply frontmatterOpen_prefix in Ho.
  assert (Hb : firstn (e + 1) (first :: ls) = first :: mid ++ [last]).
  { subst. replace (1 + length mid + 1) with (S (length mid + 1)) by lia. simpl.
    rewrite firstn_app, firstn_all2 by lia. replace (length mid + 1 - length mid) with 1 by lia.
    reflexivity. }
  apply frontmatterClose_cases in Ec as [[-> ->]|[[-> ->]|[-> ->]]];
    eexists _, _, first, mid, last, post, _; simpl; rewrite Hb, H1;
    (split; [reflexivity|]); (split; [auto|]); repeat split; auto.
Qed.

Lemma X14_witness :
  let text := lit "---" ++ 10%N :: lit "a: 1" ++ 10%N :: lit "--- " ++ 10%N :: lit "body" in
  hasFrontmatter (parse text) = true
  /\ exists fmt cl first mid last post rest,
    frontmatterFormat (parse text) = Some fmt
    /\ ((fmt = lit "---" /\ cl = lit "---") \/ (fmt = lit "+++" /\ cl = lit "+++")
        \/ (fmt = lit "{{" /\ cl = lit "}}"))
    /\ split_nl text = first :: mid ++ last :: post
    /\ items (parse text) = Item T_frontmatter 0 (join_nl (first :: mid ++ [last])) :: rest
    /\ startsWith (trim first) fmt = true
    /\ fence_line cl (trim last) = true
    /\ Forall (fun l => fence_line cl (trim l) = false) mid.
Proof.
  intros text. assert (H : hasFrontmatter (parse text) = true) by (vm_compute; reflexivity).
  split; [exact H | exact (X14_frontmatter_block text H)].
Defined.

(** ** The placeholder regular expression and the replacement *)

Definition no_digit_head (s : str) : Prop :=
  match s with [] => True | c :: _ => is_digit c = false end.

Lemma digit_prefix_split : forall r, exists r',
  r = digit_prefix r ++ r' /\ no_digit_head r' /\ forallb is_digit (digit_prefix r) = true.
Proof.
  induction r as [|c r [r' [H1 [H2 H3]]]]; simpl; [exists []; simpl; auto|].
  destruct (is_digit c) eqn:E.
  - exists r'. simpl. rewrite E. rewrite <- H1. auto.
  - exists (c :: r). simpl. auto.
Qed.

Lemma ph_match_at_spec : forall t m, ph_match_at t = Some m ->
  exists d b, t = m ++ b /\ m = placeholder_prefix ++ d /\ d <> []
  /\ forallb is_digit d = true /\ no_digit_head b.
Proof.
  intros t m H. unfold ph_match_at in H.
  destruct (startsWith t placeholder_prefix) eqn:Hs; [|discriminate].
  apply startsWith_split in Hs.
  destruct (digit_prefix_split (skipn (length placeholder_prefix) t)) as [r' [H1 [H2 H3]]].
  destruct (digit_prefix (skipn (length placeholder_prefix) t)) as [|x d] eqn:Ed; [discriminate|].
  injection H as <-. exists (x :: d), r'. repeat split; auto; [|discriminate].
  rewrite Hs at 1. rewrite H1, app_assoc. reflexivity.
Qed.

Lemma ph_scan_at : forall s skip m, In m (ph_scan s skip) ->
  exists k, ph_match_at (skipn k s) = Some m.
Proof.
  induction s as [|c s IH]; intros skip m H; simpl in H; [destruct H|].
  destruct skip as [|k].
  - destruct (ph_match_at (c :: s)) as [m'|] eqn:E.
    + destruct H as [<-|H]; [exists 0; exact E|].
      apply IH in H as [k Hk]. exists (S k). exact Hk.
    + apply IH in H as [k Hk]. exists (S k). exact Hk.
  - apply IH in H as [j Hj]. exists (S j). exact Hj.
Qed.

(** Every match of [/_mdf_sc_\d+/g] in a text is [_mdf_sc_] followed by
    one or more digits, occurs in the text, and is not followed by a
    further digit. *)
Theorem X15_placeholder_match_shape : forall s m,
  In m (placeholder_matches s) ->
  exists a b d, s = a ++ m ++ b /\ m = placeholder_prefix ++ d /\ d <> []
  /\ forallb is_digit d = true /\ no_digit_head b.
Proof.
  intros s m H. apply ph_scan_at in H as [k Hk].
  apply ph_match_at_spec in Hk as [d [b [H1 [H2 [H3 [H4 H5]]]]]].
  exists (firstn k s), b, d. repeat split; auto.
  rewrite <- H1. symmetry. apply firstn_skipn.
Qed.

Lemma X15_witness :
  In (lit "_mdf_sc_12") (placeholder_matches (lit "a_mdf_sc_12b"))
  /\ exists a b d, lit "a_mdf_sc_12b" = a ++ lit "_mdf_sc_12" ++ b
     /\ lit "_mdf_sc_12" = placeholder_prefix ++ d /\ d <> []
     /\ forallb is_digit d = true /\ no_digit_head b.
Proof.
  assert (H : In (lit "_mdf_sc_12") (placeholder_matches (lit "a_mdf_sc_12b")))
    by (vm_compute; left; reflexivity).
  split; [exact H | exact (X15_placeholder_match_shape _ _ H)].
Defined.

Lemma replace_scan_none : forall whole pat repl s position,
  (forall k, k < length s -> startsWith (skipn k s) pat = false) ->
  replace_scan whole s position 0 pat repl = s.
Proof.
  intros whole pat repl. induction s as [|c s IH]; intros position H; simpl; [reflexivity|].
  assert (H' : forall k, k < length s -> startsWith (skipn k s) pat = false).
  { intros k Hk. apply (H (S k)). simpl. lia. }
  pose proof (H 0 ltac:(simpl; lia)) as H0. simpl in H0.
  rewrite H0, andb_false_r, IH by exact H'. reflexivity.
Qed.

(** [whole.replace(new RegExp(pat, 'g'), repl)] returns [whole] unchanged
    when [pat] occurs nowhere in it. *)
Theorem X16_replaceAll_absent : forall whole pat repl,
  (forall k, k < length whole -> startsWith (skipn k whole) pat = false) ->
  replaceAll whole pat repl = whole.
Proof. intros whole pat repl H. apply replace_scan_none, H. Qed.

Lemma X16_witness :
  (forall k, k < length (lit "a_mdf_sc_1b") -> startsWith (skipn k (lit "a_mdf_sc_1b")) (lit "_mdf_sc_2") = false)
  /\ replaceAll (lit "a_mdf_sc_1b") (lit "_mdf_sc_2") (lit "$&$&") = lit "a_mdf_sc_1b".
Proof.
  assert (H : forall k, k < length (lit "a_mdf_sc_1b") ->
                startsWith (skipn k (lit "a_mdf_sc_1b")) (lit "_mdf_sc_2") = false).
  { intros k Hk. simpl in Hk.
    do 11 (destruct k as [|k]; [reflexivity|]). lia. }
  split; [exact H | exact (X16_replaceAll_absent _ _ _ H)].
Defined.

(** ** Items of the third pass *)

Lemma final_pass_items : forall sr opts its pairs fuel i s it,
  In it (fst (final_pass sr opts its pairs fuel i s)) -> In it its \/ item_type it = T_content.
Proof.
  intros sr opts its pairs. induction fuel as [|f IH]; intros i s it H; simpl in H; [destruct H|].
  destruct (nth_error its i) as [[t p v|p v n ps cl il]|] eqn:En; [| |destruct H].
  - specialize (IH (S i) s it). destruct (final_pass _ _ _ _ f (S i) s) as [rest s'].
    destruct H as [<-|H]; [left; eapply nth_error_In; exact En | apply IH, H].
  - destruct (_ || _).
    + destruct (render_single sr opts _ s) as [v' s1].
      specialize (IH (S i) s1 it). destruct (final_pass _ _ _ _ f (S i) s1) as [rest s2].
      destruct H as [<-|H]; [right; reflexivity | apply IH, H].
    + destruct (negb cl); [|apply (IH _ _ _ H)].
      destruct (find_pair_at pairs i) as [pr|]; [|apply (IH _ _ _ H)].
      destruct (assoc_get range_eqb (st_processed s) (p_start pr, p_end pr)) as [r|];
        [|apply (IH _ _ _ H)].
      destruct (nonempty r); [|apply (IH _ _ _ H)].
      specialize (IH (S (p_end pr)) s it). destruct (final_pass _ _ _ _ f _ s) as [rest s'].
      destruct H as [<-|H]; [right; reflexivity | apply IH, H].
Qed.

Lemma processItems_items : forall sr mk its opts cache it,
  In it (fst (fst (processItems sr mk its opts cache))) -> In it its \/ item_type it = T_content.
Proof.
  intros sr mk its opts cache it H. unfold processItems in H.
  destruct (fold_left _ _ _) as [rs s1].
  pose proof (final_pass_items sr opts its (sortPairs (findPairs its)) (S (length its)) 0 s1 it) as Hf.
  destruct (final_pass _ _ _ _ _ _ _) as [res s2]. exact (Hf H).
Qed.

(** [render] reports a summary divider only when the lexer found one in
    the page. *)
Theorem X17_divider_flag_from_lexer : forall pr text opts,
  res_hasSummaryDivider (fst (fst (render pr text opts))) = true ->
  hasSummaryDivider (parse text) = true.
Proof.
  intros pr text opts H. unfold render, renderLexerResult in H.
  pose proof (processItems_items (shortcodeRenderer pr) (markedInstance pr) (items (parse text)) opts
                (stepRenderCache pr)) as Hi.
  destruct (processItems _ _ _ _ _) as [[pit c'] log]. simpl in Hi.
  destruct pit as [|it [|it2 r]]; cbv beta iota zeta in H.
  - discriminate.
  - revert H. destruct (item_type it) eqn:Et; intros H.
    + destruct (compose opts [it] [] []). exact H.
    + destruct (compose opts [it] [] []). exact H.
    + destruct (Hi it (or_introl eq_refl)) as [Hin|Hc]; [|congruence].
      assert (Hd : hasSummaryDivider (parse text) = existsb is_divider_item (items (parse text)))
        by (unfold parse; destruct (fm_has (extractFrontmatter text)); reflexivity).
      rewrite Hd. apply existsb_exists. exists it. split.
      * exact Hin.
      * unfold is_divider_item. rewrite Et. reflexivity.
    + discriminate.
  - destruct (compose opts (it :: it2 :: r) [] []). exact H.
Qed.

Lemma X17_witness :
  res_hasSummaryDivider (fst (fst (render (newPageRenderer emptyRegistry id)
                                          (lit "a" ++ 10%N :: lit "<!--more-->") defaultOptions))) = true
  /\ hasSummaryDivider (parse (lit "a" ++ 10%N :: lit "<!--more-->")) = true.
Proof.
  assert (H : res_hasSummaryDivider (fst (fst (render (newPageRenderer emptyRegistry id)
                (lit "a" ++ 10%N :: lit "<!--more-->") defaultOptions))) = true)
    by (vm_compute; reflexivity).
  split; [exact H | exact (X17_divider_flag_from_lexer _ _ _ H)].
Defined.

(** ** The order of the second pass *)

Lemma insert_by_perm : forall lt x l, Permutation (insert_by lt x l) (x :: l).
Proof.
  intros lt x. induction l as [|y l IH]; simpl; [reflexivity|].
  destruct (lt y x); [|reflexivity].
  eapply perm_trans; [apply perm_skip, IH | apply perm_swap].
Qed.

(** The second pass of [processItems] visits every pair found by the
    first pass exactly once: the sorted list is a permutation of it. *)
Theorem X18_sortPairs_perm : forall pairs, Permutation (sortPairs pairs) pairs.
Proof.
  intros pairs. unfold sortPairs.
  assert (H : forall l acc, Permutation (fold_left (fun acc p => insert_by (pair_before pairs) p acc) l acc)
                                        (l ++ acc)).
  { induction l as [|p l IH]; intros acc; simpl; [reflexivity|].
    eapply perm_trans; [apply IH|].
    eapply perm_trans; [apply Permutation_app_head, insert_by_perm|].
    apply Permutation_sym, Permutation_middle. }
  rewrite <- (app_nil_r pairs) at 2. apply H.
Qed.
